(** * Tradecraft: indicator engine, crossover detector, action schema and
    chart-state engine.

    Shallow embedding of
      - lib/indicators      (calculateEMA, calculateMACD, calculateRSI,
                             findMACDCrossovers, findZeroLineCrossovers),
      - lib/schema/chartActions (the zod schemas of the chart actions),
      - lib/llm/openaiClient    (the validation loop of getChatCompletion),
      - context/ChartContext    (chartReducer, loadCandles, executeAction,
                                 executeActions),
      - components/ChartCanvas  (the data of the indicator lines, the
                                 markers, the focus effect),
      - components/ChartPanel   (handleToggleIndicator, the reload effect).

    Numbers.  In the indicators and in the chart state a JavaScript [number]
    is modelled as an exact rational [Q]: rounding, NaN and the infinities of
    IEEE doubles are outside the model there.  The raw values that the
    action schema reads are [number]s that may also be NaN or an infinity,
    since the schema decides about them.
    Equality of numbers ([===]) is [Qeq_bool].  Division by zero, which
    JavaScript answers with NaN or Infinity and [Q] with 0, is reached only
    for [period = -1] in [calculateEMA] and [period = 0] in [calculateRSI];
    every statement about values assumes [1 <= period].

    Periods are integers ([Z]); arrays are lists, read with [l !! i];
    [number | null] is [option Q] with [None] for [null]; an out-of-range read
    ([undefined]) is the outer [None] of [l !! i : option (option Q)]. *)

From Stdlib Require Import QArith Qabs Lqa ZArith Lia String.
From stdpp Require Import base option list sorting strings gmap.

Set Warnings "-clear-no-such-hyp".

Local Open Scope Z_scope.
Local Open Scope nat_scope.
Local Open Scope string_scope.
Local Open Scope list_scope.

(** ** Numbers *)

(** [x > y] and [x < y] on numbers. *)
Definition Qgt_bool (x y : Q) : bool := negb (Qle_bool x y).
Definition Qlt_bool (x y : Q) : bool := Qgt_bool y x.

(** ToNumber on [number | null]: [null] is coerced to [0]. *)
Definition num_of (v : option Q) : Q :=
  match v with Some x => x | None => 0%Q end.

(** [l.reduce((a, b) => a + b, 0)] *)
Definition sum (l : list Q) : Q := fold_left Qplus l 0%Q.

(** A derived series, [(number | null)[]]. *)
Abbreviation series := (list (option Q)).

(** ** lib/indicators: calculateEMA *)

(** The body of the [for] loop of [calculateEMA], from index [i] on; [rest] is
    [data] from index [i], so its head is [data[i]]; [ema] is the running
    value ([null] before the seed). *)
Fixpoint calculateEMA_loop (data : list Q) (period : Z) (multiplier : Q)
    (i : nat) (rest : list Q) (ema : option Q) : series :=
  match rest with
  | [] => []
  | d :: rest' =>
      if (Z.of_nat i <? period - 1)%Z then
        None :: calculateEMA_loop data period multiplier (S i) rest' ema
      else if (Z.of_nat i =? period - 1)%Z then
        let s := sum (take (Z.to_nat period) data) in
        let ema' := (s / inject_Z period)%Q in
        Some ema'
        :: calculateEMA_loop data period multiplier (S i) rest' (Some ema')
      else
        let ema' := ((d - num_of ema) * multiplier + num_of ema)%Q in
        Some ema'
        :: calculateEMA_loop data period multiplier (S i) rest' (Some ema')
  end.

Definition calculateEMA (data : list Q) (period : Z) : series :=
  let multiplier := (2 / inject_Z (period + 1))%Q in
  calculateEMA_loop data period multiplier 0 data None.

(** Arithmetic mean of a list of numbers. *)
Definition mean (l : list Q) : Q := (sum l / inject_Z (Z.of_nat (length l)))%Q.

(** ** lib/indicators: calculateMACD *)

(** The default arguments of [calculateMACD] (12, 26, 9) and of
    [calculateRSI] (14) stand in for an omitted argument; the functions below
    take every argument. *)

Record MACD : Type := mkMACD {
  macdLine : series;
  signalLine : series;
  histogram : series;
}.

(** [a.map((x, i) => { const y = b[i]; if (x === null || y === null) return
    null; return x - y; })].  The two arrays always have the same length here,
    so [b[i]] is never [undefined]. *)
Definition diff_series (a b : series) : series :=
  imap (fun i x =>
          match x, b !! i with
          | Some x, Some (Some y) => Some (x - y)%Q
          | _, _ => None
          end) a.

(** [macdLine.filter((v) => v !== null)] *)
Definition validValues (l : series) : list Q := omap id l.

(** The loop that maps the signal EMA back onto the index axis of the MACD
    line; [signalEMA[signalIdx] ?? null] is [default None (_ !! signalIdx)]. *)
Fixpoint signalLine_loop (signalEMA : series) (rest : series) (signalIdx : nat)
    : series :=
  match rest with
  | [] => []
  | None :: rest' => None :: signalLine_loop signalEMA rest' signalIdx
  | Some _ :: rest' =>
      default None (signalEMA !! signalIdx)
      :: signalLine_loop signalEMA rest' (S signalIdx)
  end.

Definition calculateMACD (data : list Q)
    (fastPeriod slowPeriod signalPeriod : Z) : MACD :=
  let fastEMA := calculateEMA data fastPeriod in
  let slowEMA := calculateEMA data slowPeriod in
  let macdLine := diff_series fastEMA slowEMA in
  let validMacdValues := validValues macdLine in
  let signalEMA := calculateEMA validMacdValues signalPeriod in
  let signalLine := signalLine_loop signalEMA macdLine 0 in
  let histogram := diff_series macdLine signalLine in
  mkMACD macdLine signalLine histogram.

(** ** lib/indicators: calculateRSI *)

(** [for (i = 1; i < data.length; i++) changes.push(data[i] - data[i - 1])] *)
Fixpoint price_changes (data : list Q) : list Q :=
  match data with
  | a :: (b :: _) as rest => (b - a)%Q :: price_changes rest
  | _ => []
  end.

(** One round of the seeding loop on the pair [(avgGain, avgLoss)]. *)
Definition seed_step (acc : Q * Q) (change : Q) : Q * Q :=
  if Qgt_bool change 0 then ((acc.1 + change)%Q, acc.2)
  else (acc.1, (acc.2 + Qabs change)%Q).

(** [if (avgLoss === 0) 100 else 100 - 100 / (1 + avgGain / avgLoss)] *)
Definition rsi_value (avgGain avgLoss : Q) : Q :=
  if Qeq_bool avgLoss 0 then 100%Q
  else let rs := (avgGain / avgLoss)%Q in (100 - 100 / (1 + rs))%Q.

(** [changes[i]] for an integer [i]; a negative or too large index reads
    [undefined]. *)
Definition change_at (changes : list Q) (i : Z) : option Q :=
  if (i <? 0)%Z then None else changes !! Z.to_nat i.

(** [change > 0 ? change : 0] and [change < 0 ? Math.abs(change) : 0]; a
    comparison with [undefined] is false. *)
Definition gain_of (change : option Q) : Q :=
  match change with
  | Some c => if Qgt_bool c 0 then c else 0%Q
  | None => 0%Q
  end.
Definition loss_of (change : option Q) : Q :=
  match change with
  | Some c => if Qlt_bool c 0 then Qabs c else 0%Q
  | None => 0%Q
  end.

(** One round of the smoothing loop. *)
Definition wilder_step (period : Z) (acc : Q * Q) (change : option Q) : Q * Q :=
  (((acc.1 * inject_Z (period - 1) + gain_of change) / inject_Z period)%Q,
   ((acc.2 * inject_Z (period - 1) + loss_of change) / inject_Z period)%Q).

(** The smoothing loop over the indices [idx] of [changes], pushing one value
    per round. *)
Fixpoint smooth_loop (period : Z) (changes : list Q) (idx : list Z)
    (acc : Q * Q) : series :=
  match idx with
  | [] => []
  | i :: idx' =>
      let acc' := wilder_step period acc (change_at changes i) in
      Some (rsi_value acc'.1 acc'.2) :: smooth_loop period changes idx' acc'
  end.

Definition calculateRSI (data : list Q) (period : Z) : series :=
  if (Z.of_nat (length data) <? period + 1)%Z then
    (fun _ => None) <$> data
  else
    let changes := price_changes data in
    (* the seeding loop reads changes[0 .. period-1], all in range here *)
    let seeds := take (Z.to_nat period) changes in
    let '(sumGain, sumLoss) := fold_left seed_step seeds (0%Q, 0%Q) in
    let avgGain := (sumGain / inject_Z period)%Q in
    let avgLoss := (sumLoss / inject_Z period)%Q in
    [None] ++ ((fun _ => None) <$> seeds)
    ++ [Some (rsi_value avgGain avgLoss)]
    ++ smooth_loop period changes
         (seqZ (period + 1) (Z.of_nat (length changes) - (period + 1)))
         (avgGain, avgLoss).

(** ** lib/indicators: crossovers *)

Inductive CrossoverType : Type := bullish | bearish.

(** An emitted event; [time] is what [times[i]] read, [None] when the read was
    out of range. *)
Record Crossover : Type := mkCrossover {
  time : option Z;
  type : CrossoverType;
}.

(** [v === null] on the result of an array read. *)
Definition is_null (v : option (option Q)) : bool :=
  match v with Some None => true | _ => false end.

(** ToNumber of an array read: [null] is 0, [undefined] is NaN ([None]). *)
Definition to_number (v : option (option Q)) : option Q :=
  match v with
  | Some (Some x) => Some x
  | Some None => Some 0%Q
  | None => None
  end.

(** [a <= b], [a > b], [a >= b], [a < b] after ToNumber; false on NaN. *)
Definition js_le (a b : option (option Q)) : bool :=
  match to_number a, to_number b with
  | Some x, Some y => Qle_bool x y
  | _, _ => false
  end.
Definition js_gt (a b : option (option Q)) : bool :=
  match to_number a, to_number b with
  | Some x, Some y => Qgt_bool x y
  | _, _ => false
  end.
Definition js_ge (a b : option (option Q)) : bool := js_le b a.
Definition js_lt (a b : option (option Q)) : bool := js_gt b a.

(** The body of the loop of [findMACDCrossovers] at index [i]: the events it
    pushes. *)
Definition crossover_at (macdLine signalLine : series) (times : list Z)
    (i : nat) : list Crossover :=
  let prevMacd := macdLine !! (i - 1) in
  let currMacd := macdLine !! i in
  let prevSignal := signalLine !! (i - 1) in
  let currSignal := signalLine !! i in
  if is_null prevMacd || is_null currMacd
     || is_null prevSignal || is_null currSignal
  then []
  else if js_le prevMacd prevSignal && js_gt currMacd currSignal
  then [mkCrossover (times !! i) bullish]
  else if js_ge prevMacd prevSignal && js_lt currMacd currSignal
  then [mkCrossover (times !! i) bearish]
  else [].

(** [for (let i = 1; i < macdLine.length; i++)] *)
Definition findMACDCrossovers (macdLine signalLine : series) (times : list Z)
    : list Crossover :=
  flat_map (crossover_at macdLine signalLine times)
           (seq 1 (length macdLine - 1)).

Definition zero_crossover_at (macdLine : series) (times : list Z) (i : nat)
    : list Crossover :=
  let prevMacd := macdLine !! (i - 1) in
  let currMacd := macdLine !! i in
  let zero := Some (Some 0%Q) in
  if is_null prevMacd || is_null currMacd
  then []
  else if js_le prevMacd zero && js_gt currMacd zero
  then [mkCrossover (times !! i) bullish]
  else if js_ge prevMacd zero && js_lt currMacd zero
  then [mkCrossover (times !! i) bearish]
  else [].

Definition findZeroLineCrossovers (macdLine : series) (times : list Z)
    : list Crossover :=
  flat_map (zero_crossover_at macdLine times) (seq 1 (length macdLine - 1)).

(** ** Outcomes of fallible code: a normal result or a thrown error *)

Inductive error : Type :=
  | ZodError      (* thrown by [schema.parse] *)
  | FetchError.   (* a rejected [fetch], a non-ok response, a bad body *)

Inductive outcome (A : Type) : Type :=
  | Return (a : A)
  | Throw (e : error).
Arguments Return {A} a.
Arguments Throw {A} e.

#[global] Instance outcome_ret : MRet outcome := fun A => @Return A.
#[global] Instance outcome_bind : MBind outcome := fun A B f m =>
  match m with Return a => f a | Throw e => Throw e end.
#[global] Instance outcome_fmap : FMap outcome := fun A B f m =>
  match m with Return a => Return (f a) | Throw e => Throw e end.

(** [try { body } catch (e) { handler(e) }] *)
Definition try_catch {A} (body : outcome A) (handler : error -> outcome A)
    : outcome A :=
  match body with Return a => Return a | Throw e => handler e end.

(** ** JSON values and the zod combinators the schemas use *)

(** A JavaScript number as a caller or [JSON.parse] hands it over: a finite
    value, taken as an exact rational, or one of the values that are not
    finite ([JSON.parse("1e400")] is [Infinity]). *)
Inductive number : Type :=
  | Finite (q : Q)
  | PosInfinity
  | NegInfinity
  | NaN.

#[warnings="-register-all"]
Inductive json : Type :=
  | JNull
  | JBool (b : bool)
  | JNumber (n : number)
  | JString (s : string)
  | JArray (items : list json)
  | JObject (fields : list (string * json)).

(** Property read [obj[key]]; [None] is [undefined]. *)
Fixpoint get (key : string) (fields : list (string * json)) : option json :=
  match fields with
  | [] => None
  | (k, v) :: rest => if String.eqb k key then Some v else get key rest
  end.

(** A schema parses the value found at some place; [None] is an absent
    ([undefined]) value. *)
Definition schema (A : Type) : Type := option json -> outcome A.

Definition z_string : schema string := fun v =>
  match v with Some (JString s) => Return s | _ => Throw ZodError end.

(** [z.number()] accepts the finite numbers only.  [NaN] is rejected by
    every version of zod; the infinities are rejected by zod 4, while zod 3
    let them through unless [.finite()] was added.  These sources do not
    record the version of zod; the specification's "non-finite numeric values
    cause rejection" is the behaviour of zod 4, which is the one modelled,
    here and in [z_record_number]. *)
Definition z_number : schema Q := fun v =>
  match v with
  | Some (JNumber (Finite q)) => Return q
  | _ => Throw ZodError
  end.

Definition z_literal (lit : string) : schema unit := fun v =>
  match v with
  | Some (JString s) => if String.eqb s lit then Return tt else Throw ZodError
  | _ => Throw ZodError
  end.

(** [z.enum([...])], with the value each string denotes. *)
Fixpoint enum_lookup {A} (s : string) (values : list (string * A)) : option A :=
  match values with
  | [] => None
  | (k, a) :: rest => if String.eqb k s then Some a else enum_lookup s rest
  end.

Definition z_enum {A} (values : list (string * A)) : schema A := fun v =>
  match v with
  | Some (JString s) =>
      match enum_lookup s values with
      | Some a => Return a
      | None => Throw ZodError
      end
  | _ => Throw ZodError
  end.

Definition z_optional {A} (s : schema A) : schema (option A) := fun v =>
  match v with
  | None => Return None
  | Some _ => a ← s v; Return (Some a)
  end.

Definition z_array {A} (s : schema A) : schema (list A) := fun v =>
  match v with
  | Some (JArray items) => mapM (fun x => s (Some x)) items
  | _ => Throw ZodError
  end.

(** [z.record(z.string(), z.number())]: zod's loop over the own keys of
    the input passes over the key [__proto__]
    ([if (key === "__proto__") continue]), so that entry is neither checked
    nor kept. *)
Definition record_entries (fields : list (string * json))
    : list (string * json) :=
  List.filter (fun kv => negb (String.eqb kv.1 "__proto__")) fields.

Definition z_record_number : schema (gmap string Q) := fun v =>
  match v with
  | Some (JObject fields) =>
      kvs ← mapM (fun kv => q ← z_number (Some kv.2); Return (kv.1, q))
                 (record_entries fields);
      Return (list_to_map kvs)
  | _ => Throw ZodError
  end.

(** [z.object({...})]: the value must be an object; [shape] parses its
    fields. *)
Definition z_object {A} (shape : list (string * json) -> outcome A)
    : schema A := fun v =>
  match v with
  | Some (JObject fields) => shape fields
  | _ => Throw ZodError
  end.

(** ** lib/schema/chartActions *)

Inductive Timeframe : Type := TF_1h | TF_4h | TF_1d.
Inductive IndicatorType : Type := MACD_ | RSI_ | EMA_.
Inductive PaneType : Type := pane_price | pane_indicator.

Definition Timeframe_str (t : Timeframe) : string :=
  match t with TF_1h => "1h" | TF_4h => "4h" | TF_1d => "1d" end.
Definition IndicatorType_str (t : IndicatorType) : string :=
  match t with MACD_ => "MACD" | RSI_ => "RSI" | EMA_ => "EMA" end.
Definition PaneType_str (t : PaneType) : string :=
  match t with pane_price => "price" | pane_indicator => "indicator" end.

#[global] Instance IndicatorType_eq_dec : EqDecision IndicatorType.
Proof. solve_decision. Defined.

Definition TimeframeSchema : schema Timeframe :=
  z_enum [("1h", TF_1h); ("4h", TF_4h); ("1d", TF_1d)].
Definition IndicatorTypeSchema : schema IndicatorType :=
  z_enum [("MACD", MACD_); ("RSI", RSI_); ("EMA", EMA_)].
Definition PaneTypeSchema : schema PaneType :=
  z_enum [("price", pane_price); ("indicator", pane_indicator)].

Record HighlightPoint : Type := mkHighlightPoint {
  hp_time : Q;
  hp_price : option Q;
  hp_pane : option PaneType;
  hp_label : option string;
}.

Record Region : Type := mkRegion {
  rg_fromTime : Q;
  rg_toTime : Q;
  rg_pane : option PaneType;
  rg_label : option string;
}.

Record Annotation : Type := mkAnnotation {
  an_time : Q;
  an_price : option Q;
  an_text : string;
  an_pane : option PaneType;
}.

Record Range : Type := mkRange {
  rn_fromTime : Q;
  rn_toTime : Q;
}.

Inductive ChartAction : Type :=
  | SET_SYMBOL (symbol : string)
  | SET_TIMEFRAME (timeframe : Timeframe)
  | LOAD_CANDLES (symbol : string) (timeframe : string) (from to : option Q)
  | ADD_INDICATOR (indicator : IndicatorType) (params : option (gmap string Q))
  | UPDATE_INDICATOR_PARAMS (indicator : IndicatorType) (params : gmap string Q)
  | HIGHLIGHT_POINTS (points : list HighlightPoint)
  | HIGHLIGHT_REGION (region : Region)
  | ADD_ANNOTATION (annotation : Annotation)
  | FOCUS_RANGE (range : Range)
  | CLEAR_HIGHLIGHTS
  | CLEAR_INDICATORS.

Definition SetSymbolActionSchema : schema ChartAction :=
  z_object (fun o =>
    _ ← z_literal "SET_SYMBOL" (get "type" o);
    symbol ← z_string (get "symbol" o);
    Return (SET_SYMBOL symbol)).

Definition SetTimeframeActionSchema : schema ChartAction :=
  z_object (fun o =>
    _ ← z_literal "SET_TIMEFRAME" (get "type" o);
    timeframe ← TimeframeSchema (get "timeframe" o);
    Return (SET_TIMEFRAME timeframe)).

Definition LoadCandlesActionSchema : schema ChartAction :=
  z_object (fun o =>
    _ ← z_literal "LOAD_CANDLES" (get "type" o);
    symbol ← z_string (get "symbol" o);
    timeframe ← z_string (get "timeframe" o);
    from ← z_optional z_number (get "from" o);
    to ← z_optional z_number (get "to" o);
    Return (LOAD_CANDLES symbol timeframe from to)).

Definition AddIndicatorActionSchema : schema ChartAction :=
  z_object (fun o =>
    _ ← z_literal "ADD_INDICATOR" (get "type" o);
    indicator ← IndicatorTypeSchema (get "indicator" o);
    params ← z_optional z_record_number (get "params" o);
    Return (ADD_INDICATOR indicator params)).

Definition UpdateIndicatorParamsActionSchema : schema ChartAction :=
  z_object (fun o =>
    _ ← z_literal "UPDATE_INDICATOR_PARAMS" (get "type" o);
    indicator ← IndicatorTypeSchema (get "indicator" o);
    params ← z_record_number (get "params" o);
    Return (UPDATE_INDICATOR_PARAMS indicator params)).

Definition HighlightPointSchema : schema HighlightPoint :=
  z_object (fun o =>
    time ← z_number (get "time" o);
    price ← z_optional z_number (get "price" o);
    pane ← z_optional PaneTypeSchema (get "pane" o);
    label ← z_optional z_string (get "label" o);
    Return (mkHighlightPoint time price pane label)).

Definition HighlightPointsActionSchema : schema ChartAction :=
  z_object (fun o =>
    _ ← z_literal "HIGHLIGHT_POINTS" (get "type" o);
    points ← z_array HighlightPointSchema (get "points" o);
    Return (HIGHLIGHT_POINTS points)).

Definition HighlightRegionActionSchema : schema ChartAction :=
  z_object (fun o =>
    _ ← z_literal "HIGHLIGHT_REGION" (get "type" o);
    region ← z_object (fun r =>
      fromTime ← z_number (get "fromTime" r);
      toTime ← z_number (get "toTime" r);
      pane ← z_optional PaneTypeSchema (get "pane" r);
      label ← z_optional z_string (get "label" r);
      Return (mkRegion fromTime toTime pane label)) (get "region" o);
    Return (HIGHLIGHT_REGION region)).

Definition AddAnnotationActionSchema : schema ChartAction :=
  z_object (fun o =>
    _ ← z_literal "ADD_ANNOTATION" (get "type" o);
    annotation ← z_object (fun a =>
      time ← z_number (get "time" a);
      price ← z_optional z_number (get "price" a);
      text ← z_string (get "text" a);
      pane ← z_optional PaneTypeSchema (get "pane" a);
      Return (mkAnnotation time price text pane)) (get "annotation" o);
    Return (ADD_ANNOTATION annotation)).

Definition FocusRangeActionSchema : schema ChartAction :=
  z_object (fun o =>
    _ ← z_literal "FOCUS_RANGE" (get "type" o);
    range ← z_object (fun r =>
      fromTime ← z_number (get "fromTime" r);
      toTime ← z_number (get "toTime" r);
      Return (mkRange fromTime toTime)) (get "range" o);
    Return (FOCUS_RANGE range)).

Definition ClearHighlightsActionSchema : schema ChartAction :=
  z_object (fun o =>
    _ ← z_literal "CLEAR_HIGHLIGHTS" (get "type" o);
    Return CLEAR_HIGHLIGHTS).

Definition ClearIndicatorsActionSchema : schema ChartAction :=
  z_object (fun o =>
    _ ← z_literal "CLEAR_INDICATORS" (get "type" o);
    Return CLEAR_INDICATORS).

(** [z.discriminatedUnion(key, options)]: the value must be an object whose
    [key] is the literal of one of the options; that option then parses the
    whole value. *)
Definition z_discriminatedUnion {A} (key : string)
    (options : list (string * schema A)) : schema A := fun v =>
  match v with
  | Some (JObject fields) =>
      match get key fields with
      | Some (JString tag) =>
          match enum_lookup tag options with
          | Some option => option v
          | None => Throw ZodError
          end
      | _ => Throw ZodError
      end
  | _ => Throw ZodError
  end.

Definition ChartActionSchema : schema ChartAction :=
  z_discriminatedUnion "type" [
    ("SET_SYMBOL", SetSymbolActionSchema);
    ("SET_TIMEFRAME", SetTimeframeActionSchema);
    ("LOAD_CANDLES", LoadCandlesActionSchema);
    ("ADD_INDICATOR", AddIndicatorActionSchema);
    ("UPDATE_INDICATOR_PARAMS", UpdateIndicatorParamsActionSchema);
    ("HIGHLIGHT_POINTS", HighlightPointsActionSchema);
    ("HIGHLIGHT_REGION", HighlightRegionActionSchema);
    ("ADD_ANNOTATION", AddAnnotationActionSchema);
    ("FOCUS_RANGE", FocusRangeActionSchema);
    ("CLEAR_HIGHLIGHTS", ClearHighlightsActionSchema);
    ("CLEAR_INDICATORS", ClearIndicatorsActionSchema)
  ].

(** [ChartActionSchema.parse(value)] *)
Definition parse (value : json) : outcome ChartAction :=
  ChartActionSchema (Some value).

Record Candle : Type := mkCandle {
  c_time : Z;
  c_open : Q;
  c_high : Q;
  c_low : Q;
  c_close : Q;
  c_volume : option Q;
}.

Record IndicatorConfig : Type := mkIndicatorConfig {
  name : IndicatorType;
  params : gmap string Q;
  visible : bool;
}.

Record ChartContextState : Type := mkState {
  symbol : string;
  timeframe : Timeframe;
  candles : list Candle;
  indicators : list IndicatorConfig;
  visibleFrom : option Q;
  visibleTo : option Q;
  highlights : list HighlightPoint;
  annotations : list Annotation;
  isLoading : bool;
}.

(** ** context/ChartContext *)

Definition initialState : ChartContextState := {|
  symbol := "BTCUSDT";
  timeframe := TF_1d;
  candles := [];
  indicators := [];
  visibleFrom := None;
  visibleTo := None;
  highlights := [];
  annotations := [];
  isLoading := false;
|}.

(** The internal actions of the reducer. *)
Module Internal.
Inductive InternalAction : Type :=
  | SET_SYMBOL (symbol : string)
  | SET_TIMEFRAME (timeframe : Timeframe)
  | SET_CANDLES (candles : list Candle)
  | SET_LOADING (isLoading : bool)
  | ADD_INDICATOR (indicator : IndicatorConfig)
  | UPDATE_INDICATOR_PARAMS (indicatorName : IndicatorType)
      (params : gmap string Q)
  | REMOVE_INDICATOR (indicatorName : IndicatorType)
  | CLEAR_INDICATORS
  | ADD_HIGHLIGHTS (points : list HighlightPoint)
  | ADD_ANNOTATION (annotation : Annotation)
  | CLEAR_HIGHLIGHTS
  | SET_VISIBLE_RANGE (from to : Q).
End Internal.
Export Internal (InternalAction).

(** [i.name === n] *)
Definition name_is (n : IndicatorType) (i : IndicatorConfig) : bool :=
  bool_decide (name i = n).

Definition chartReducer (state : ChartContextState) (action : InternalAction)
    : ChartContextState :=
  match action with
  | Internal.SET_SYMBOL s =>
      mkState s (timeframe state) (candles state) (indicators state)
        (visibleFrom state) (visibleTo state) (highlights state)
        (annotations state) (isLoading state)
  | Internal.SET_TIMEFRAME t =>
      mkState (symbol state) t (candles state) (indicators state)
        (visibleFrom state) (visibleTo state) (highlights state)
        (annotations state) (isLoading state)
  | Internal.SET_CANDLES cs =>
      mkState (symbol state) (timeframe state) cs (indicators state)
        (visibleFrom state) (visibleTo state) (highlights state)
        (annotations state) (isLoading state)
  | Internal.SET_LOADING b =>
      mkState (symbol state) (timeframe state) (candles state)
        (indicators state) (visibleFrom state) (visibleTo state)
        (highlights state) (annotations state) b
  | Internal.ADD_INDICATOR indicator =>
      let inds :=
        if existsb (name_is (name indicator)) (indicators state)
        then (fun i => if name_is (name indicator) i then indicator else i)
               <$> indicators state
        else indicators state ++ [indicator] in
      mkState (symbol state) (timeframe state) (candles state) inds
        (visibleFrom state) (visibleTo state) (highlights state)
        (annotations state) (isLoading state)
  | Internal.UPDATE_INDICATOR_PARAMS indicatorName ps =>
      let inds :=
        (fun i => if name_is indicatorName i
                  then mkIndicatorConfig (name i) ps (visible i) else i)
          <$> indicators state in
      mkState (symbol state) (timeframe state) (candles state) inds
        (visibleFrom state) (visibleTo state) (highlights state)
        (annotations state) (isLoading state)
  | Internal.REMOVE_INDICATOR indicatorName =>
      let inds :=
        List.filter (fun i => negb (name_is indicatorName i))
                    (indicators state) in
      mkState (symbol state) (timeframe state) (candles state) inds
        (visibleFrom state) (visibleTo state) (highlights state)
        (annotations state) (isLoading state)
  | Internal.CLEAR_INDICATORS =>
      mkState (symbol state) (timeframe state) (candles state) []
        (visibleFrom state) (visibleTo state) (highlights state)
        (annotations state) (isLoading state)
  | Internal.ADD_HIGHLIGHTS points =>
      mkState (symbol state) (timeframe state) (candles state)
        (indicators state) (visibleFrom state) (visibleTo state)
        (highlights state ++ points) (annotations state) (isLoading state)
  | Internal.ADD_ANNOTATION annotation =>
      mkState (symbol state) (timeframe state) (candles state)
        (indicators state) (visibleFrom state) (visibleTo state)
        (highlights state) (annotations state ++ [annotation])
        (isLoading state)
  | Internal.CLEAR_HIGHLIGHTS =>
      mkState (symbol state) (timeframe state) (candles state)
        (indicators state) (visibleFrom state) (visibleTo state) [] []
        (isLoading state)
  | Internal.SET_VISIBLE_RANGE from to =>
      mkState (symbol state) (timeframe state) (candles state)
        (indicators state) (Some from) (Some to) (highlights state)
        (annotations state) (isLoading state)
  end.

(** What the provider holds while a batch runs: the reducer state, and the
    number of candle requests sent so far (the answer of the market-data
    route may change from one request to the next). *)
Record Engine : Type := mkEngine {
  chart : ChartContextState;
  requests : nat;
}.

(** [state.symbol] and [state.timeframe] as the [loadCandles] callback sees
    them: the values of the render that created the callback. *)
Record Captured : Type := mkCaptured {
  cap_symbol : string;
  cap_timeframe : Timeframe;
}.

(** [a || b] on an optional string: [undefined] and the empty string are
    falsy. *)
Definition js_or (a : option string) (b : string) : string :=
  match a with
  | Some s => if String.eqb s "" then b else s
  | None => b
  end.

(** [label ? `${prefix}${label}` : undefined] *)
Definition prefixed (prefix : string) (label : option string) : option string :=
  match label with
  | Some s => if String.eqb s "" then None else Some (prefix ++ s)%string
  | None => None
  end.

Definition defaultParams (indicator : IndicatorType) : gmap string Q :=
  match indicator with
  | MACD_ => {[ "fast" := 12%Q; "slow" := 26%Q; "signal" := 9%Q ]}
  | RSI_ => {[ "period" := 14%Q ]}
  | EMA_ => {[ "period" := 20%Q ]}
  end.

(** ** lib/llm/openaiClient: the validation loop of getChatCompletion *)

(** [for (const action of args.actions) { try { actions.push(
    ChartActionSchema.parse(action)) } catch (e) { console.warn(...) } }],
    from the accumulated [actions] on. *)
Fixpoint validate_loop (raw : list json) (actions : list ChartAction)
    : outcome (list ChartAction) :=
  match raw with
  | [] => Return actions
  | action :: rest =>
      actions ← try_catch
                  (validatedAction ← parse action;
                   Return (actions ++ [validatedAction]))
                  (fun _ => (* console.warn *) Return actions);
      validate_loop rest actions
  end.

Definition validateActions (raw : list json) : outcome (list ChartAction) :=
  validate_loop raw [].

Section Engine.
(** The market-data route: the answer to the [n]-th request for a symbol
    and a timeframe is the candles of the body, or a failure. *)
Variable fetchCandles : nat -> string -> string -> outcome (list Candle).
Variable captured : Captured.

Definition dispatch (action : InternalAction) (eng : Engine) : Engine :=
  mkEngine (chartReducer (chart eng) action) (requests eng).

Definition loadCandles (symbol timeframe : option string) (eng : Engine)
    : outcome Engine :=
  let targetSymbol := js_or symbol (cap_symbol captured) in
  let targetTimeframe :=
    js_or timeframe (Timeframe_str (cap_timeframe captured)) in
  let eng := dispatch (Internal.SET_LOADING true) eng in
  let response := fetchCandles (requests eng) targetSymbol targetTimeframe in
  let eng := mkEngine (chart eng) (S (requests eng)) in
  eng ← try_catch
          (data ← response;
           Return (dispatch (Internal.SET_CANDLES data) eng))
          (fun _ => (* console.error *) Return eng);
  (* finally *)
  Return (dispatch (Internal.SET_LOADING false) eng).

Definition executeAction (action : ChartAction) (eng : Engine)
    : outcome Engine :=
  match action with
  | SET_SYMBOL symbol =>
      let eng := dispatch (Internal.SET_SYMBOL symbol) eng in
      loadCandles (Some symbol) None eng
  | SET_TIMEFRAME timeframe =>
      let eng := dispatch (Internal.SET_TIMEFRAME timeframe) eng in
      loadCandles None (Some (Timeframe_str timeframe)) eng
  | LOAD_CANDLES symbol timeframe _ _ =>
      loadCandles (Some symbol) (Some timeframe) eng
  | ADD_INDICATOR indicator params =>
      Return (dispatch
        (Internal.ADD_INDICATOR
           (mkIndicatorConfig indicator
              (default (defaultParams indicator) params) true)) eng)
  | UPDATE_INDICATOR_PARAMS indicator params =>
      Return (dispatch (Internal.UPDATE_INDICATOR_PARAMS indicator params) eng)
  | HIGHLIGHT_POINTS points =>
      Return (dispatch (Internal.ADD_HIGHLIGHTS points) eng)
  | HIGHLIGHT_REGION region =>
      Return (dispatch
        (Internal.ADD_HIGHLIGHTS
           [ mkHighlightPoint (rg_fromTime region) None (rg_pane region)
               (prefixed "Start: " (rg_label region));
             mkHighlightPoint (rg_toTime region) None (rg_pane region)
               (prefixed "End: " (rg_label region)) ]) eng)
  | ADD_ANNOTATION annotation =>
      Return (dispatch (Internal.ADD_ANNOTATION annotation) eng)
  | FOCUS_RANGE range =>
      Return (dispatch
        (Internal.SET_VISIBLE_RANGE (rn_fromTime range) (rn_toTime range)) eng)
  | CLEAR_HIGHLIGHTS => Return (dispatch Internal.CLEAR_HIGHLIGHTS eng)
  | CLEAR_INDICATORS => Return (dispatch Internal.CLEAR_INDICATORS eng)
  end.

(** [for (const action of actions) await executeAction(action)] *)
Fixpoint executeActions (actions : list ChartAction) (eng : Engine)
    : outcome Engine :=
  match actions with
  | [] => Return eng
  | action :: rest => eng ← executeAction action eng; executeActions rest eng
  end.

(** The chat panel on the validated actions of a response:
    [if (data.actions && data.actions.length > 0)
       await executeActions(data.actions)]. *)
Definition validateThenApply (raw : list json) (eng : Engine)
    : outcome Engine :=
  actions ← validateActions raw;
  match actions with
  | [] => Return eng
  | _ => executeActions actions eng
  end.
End Engine.

(** ** Vocabulary of the statements *)

(** [k] is the first index at which the series holds a number. *)
Definition first_defined (l : series) (k : nat) : Prop :=
  (exists v, l !! k = Some (Some v)) /\ forall j, j < k -> l !! j = Some None.

(** The series is null below index [k] and holds a number from [k] on. *)
Definition defined_from (l : series) (k : nat) : Prop :=
  forall i, i < length l ->
    (i < k -> l !! i = Some None)
    /\ (k <= i -> exists v, l !! i = Some (Some v)).

(** The gains and the losses of a list of price changes, as the seeding loop
    splits them. *)
Definition gains (changes : list Q) : list Q :=
  (fun c => if Qgt_bool c 0 then c else 0%Q) <$> changes.
Definition losses (changes : list Q) : list Q :=
  (fun c => if Qgt_bool c 0 then 0%Q else Qabs c) <$> changes.

(** The pair [(avgGain, avgLoss)] after the seeding loop. *)
Definition rsi_seed (period : Z) (changes : list Q) : Q * Q :=
  let s := fold_left seed_step (take (Z.to_nat period) changes) (0%Q, 0%Q) in
  ((s.1 / inject_Z period)%Q, (s.2 / inject_Z period)%Q).

(** The pair [(avgGain, avgLoss)] after [k] rounds of the smoothing loop, the
    first of which reads [changes[start]]. *)
Fixpoint avgs_iter (period : Z) (changes : list Q) (start : nat) (acc : Q * Q)
    (k : nat) : Q * Q :=
  match k with
  | 0 => acc
  | S k' =>
      wilder_step period (avgs_iter period changes start acc k')
        (changes !! (start + k'))
  end.

Definition rsi_avgs (period : Z) (changes : list Q) (k : nat) : Q * Q :=
  avgs_iter period changes (Z.to_nat period + 1) (rsi_seed period changes) k.

(** Both averages are non-negative. *)
Definition nonneg_pair (a : Q * Q) : Prop := (0 <= a.1)%Q /\ (0 <= a.2)%Q.

(** Series [A] crosses series [B] between the samples [i-1] and [i]: all four
    samples are numbers, and [A] goes from not above [B] to above it
    (bullish), or from not below [B] to below it (bearish). *)
Definition crossing (A B : series) (i : nat) (ty : CrossoverType) : Prop :=
  exists pa pb ca cb,
    1 <= i
    /\ A !! (i - 1) = Some (Some pa) /\ B !! (i - 1) = Some (Some pb)
    /\ A !! i = Some (Some ca) /\ B !! i = Some (Some cb)
    /\ match ty with
       | bullish => (pa <= pb)%Q /\ (cb < ca)%Q
       | bearish => (pb <= pa)%Q /\ (ca < cb)%Q
       end.

(** The first event is strictly earlier than the second. *)
Definition earlier (e1 e2 : Crossover) : Prop :=
  exists t1 t2, time e1 = Some t1 /\ time e2 = Some t2 /\ (t1 < t2)%Z.

(** The wire shape of a chart action: what the fields of an object tagged
    [tag] have to hold. *)
Definition is_finite_number (v : option json) : Prop :=
  exists q, v = Some (JNumber (Finite q)).
Definition is_string (v : option json) : Prop := exists s, v = Some (JString s).
Definition is_one_of (values : list string) (v : option json) : Prop :=
  exists s, v = Some (JString s) /\ s ∈ values.
Definition optionally (P : option json -> Prop) (v : option json) : Prop :=
  v = None \/ P v.
Definition is_number_record (v : option json) : Prop :=
  exists o,
    v = Some (JObject o)
    /\ Forall (fun kv => is_finite_number (Some kv.2)) (record_entries o).
Definition is_object (P : list (string * json) -> Prop) (v : option json)
    : Prop :=
  exists o, v = Some (JObject o) /\ P o.
Definition is_array (P : option json -> Prop) (v : option json) : Prop :=
  exists items, v = Some (JArray items) /\ Forall (fun x => P (Some x)) items.

Definition timeframes : list string := ["1h"; "4h"; "1d"].
Definition indicatorTypes : list string := ["MACD"; "RSI"; "EMA"].
Definition paneTypes : list string := ["price"; "indicator"].

Definition point_shape (o : list (string * json)) : Prop :=
  is_finite_number (get "time" o)
  /\ optionally is_finite_number (get "price" o)
  /\ optionally (is_one_of paneTypes) (get "pane" o)
  /\ optionally is_string (get "label" o).

Definition region_shape (o : list (string * json)) : Prop :=
  is_finite_number (get "fromTime" o)
  /\ is_finite_number (get "toTime" o)
  /\ optionally (is_one_of paneTypes) (get "pane" o)
  /\ optionally is_string (get "label" o).

Definition annotation_shape (o : list (string * json)) : Prop :=
  is_finite_number (get "time" o)
  /\ optionally is_finite_number (get "price" o)
  /\ is_string (get "text" o)
  /\ optionally (is_one_of paneTypes) (get "pane" o).

Definition range_shape (o : list (string * json)) : Prop :=
  is_finite_number (get "fromTime" o) /\ is_finite_number (get "toTime" o).

(** The 11 tags, each with the shape of its fields. *)
Definition wire_shapes : list (string * (list (string * json) -> Prop)) := [
  ("SET_SYMBOL", fun o => is_string (get "symbol" o));
  ("SET_TIMEFRAME", fun o => is_one_of timeframes (get "timeframe" o));
  ("LOAD_CANDLES", fun o =>
     is_string (get "symbol" o) /\ is_string (get "timeframe" o)
     /\ optionally is_finite_number (get "from" o)
     /\ optionally is_finite_number (get "to" o));
  ("ADD_INDICATOR", fun o =>
     is_one_of indicatorTypes (get "indicator" o)
     /\ optionally is_number_record (get "params" o));
  ("UPDATE_INDICATOR_PARAMS", fun o =>
     is_one_of indicatorTypes (get "indicator" o)
     /\ is_number_record (get "params" o));
  ("HIGHLIGHT_POINTS", fun o =>
     is_array (is_object point_shape) (get "points" o));
  ("HIGHLIGHT_REGION", fun o => is_object region_shape (get "region" o));
  ("ADD_ANNOTATION", fun o => is_object annotation_shape (get "annotation" o));
  ("FOCUS_RANGE", fun o => is_object range_shape (get "range" o));
  ("CLEAR_HIGHLIGHTS", fun _ => True);
  ("CLEAR_INDICATORS", fun _ => True)
].


(** An action schema accepts exactly the objects tagged [tag] whose fields
    have the shape [P]. *)
Definition accepts_tagged (sch : schema ChartAction) (tag : string)
    (P : list (string * json) -> Prop) : Prop :=
  forall v, (exists a, sch v = Return a)
            <-> is_object (fun o => get "type" o = Some (JString tag) /\ P o) v.








(** The raw commands that validation rejects, and the validated commands of
    the others, in their original order. *)
Definition is_rejected (raw : json) : bool :=
  match parse raw with Return _ => false | Throw _ => true end.

Definition validSubsequence (raw : list json) : list ChartAction :=
  omap (fun v => match parse v with Return a => Some a | Throw _ => None end)
       raw.

(** "Applying the valid commands sequentially in their original relative
    order": the first command is applied to the state, the second to the
    state that gives, and so on to the last; the state after the last one is
    the state produced. *)
Inductive applied_in_order
    (fetchCandles : nat -> string -> string -> outcome (list Candle))
    (captured : Captured) : Engine -> list ChartAction -> Engine -> Prop :=
  | applied_none eng : applied_in_order fetchCandles captured eng [] eng
  | applied_next eng command eng1 rest eng' :
      executeAction fetchCandles captured command eng = Return eng1 ->
      applied_in_order fetchCandles captured eng1 rest eng' ->
      applied_in_order fetchCandles captured eng (command :: rest) eng'.

(** The commands that reload the candles. *)
Definition is_reload (action : ChartAction) : bool :=
  match action with
  | SET_SYMBOL _ | SET_TIMEFRAME _ | LOAD_CANDLES _ _ _ _ => true
  | _ => false
  end.

(** The names of the active indicator configurations. *)
Definition indicator_names (state : ChartContextState) : list IndicatorType :=
  name <$> indicators state.

(** ** components/ChartCanvas: what is handed to the chart *)

(** A point of a line series; [lp_time] is what [times[idx]] read. *)
Record LinePoint : Type := mkLinePoint {
  lp_time : option Z;
  lp_value : Q;
}.

(** [values.map((value, idx) => ({ time: times[idx], value }))
          .filter((d) => d.value !== null)] *)
Definition lineData (values : series) (times : list Z) : list LinePoint :=
  omap (fun d : option Z * option Q => mkLinePoint d.1 <$> d.2)
       (imap (fun idx value => (times !! idx, value)) values).

(** A marker of the candlestick series (position, colour and shape are
    constants). *)
Record Marker : Type := mkMarker {
  mk_time : Q;
  mk_text : string;
}.

(** [!h.pane || h.pane === "price"] *)
Definition on_price_pane (h : HighlightPoint) : bool :=
  match hp_pane h with
  | None => true
  | Some pane_price => true
  | Some pane_indicator => false
  end.

(** [state.highlights.filter(...).map((highlight) => ({ time: highlight.time,
    ..., text: highlight.label || "" }))]; on no highlights the effect sets
    the empty list, which is what this gives. *)
Definition markersOf (highlights : list HighlightPoint) : list Marker :=
  (fun highlight =>
     mkMarker (hp_time highlight) (js_or (hp_label highlight) ""))
    <$> List.filter on_price_pane highlights.




(** ** components/ChartPanel *)

(** The reload effect of the panel,
    [useEffect(() => { loadCandles(); }, [loadCandles])], where
    [loadCandles] is a [useCallback] on [[state.symbol, state.timeframe]]:
    after the mount the effect runs again, and asks for candles once more,
    exactly when a render sees another symbol or another timeframe than the
    render before. *)
Definition reloadEffect_runs (rendered state : ChartContextState) : bool :=
  negb (String.eqb (symbol rendered) (symbol state)
        && String.eqb (Timeframe_str (timeframe rendered))
                      (Timeframe_str (timeframe state))).

(** [handleToggleIndicator]: [state.indicators.find((i) => i.name ===
    indicator)] decides between removing and adding with the defaults. *)
Definition handleToggleIndicator
    (fetchCandles : nat -> string -> string -> outcome (list Candle))
    (captured : Captured) (indicator : IndicatorType) (eng : Engine)
    : outcome Engine :=
  match List.find (name_is indicator) (indicators (chart eng)) with
  | Some _ => Return (dispatch (Internal.REMOVE_INDICATOR indicator) eng)
  | None =>
      executeAction fetchCandles captured (ADD_INDICATOR indicator None) eng
  end.

(** ** lib/llm/openaiClient: lesson options and the message list *)

(** [try { return ChartActionSchema.parse(a) } catch { return null }] *)
Definition parseOrNull (a : json) : option ChartAction :=
  match parse a with Return v => Some v | Throw _ => None end.

(** The actions of a lesson option:
    [(opt.actions || []).map(parseOrNull).filter(Boolean)], on the array
    [opt.actions]. *)
Definition lessonActions (raw : list json) : list ChartAction :=
  omap id (parseOrNull <$> raw).

Inductive Role : Type := role_user | role_assistant | role_system.

Record ChatMessage : Type := mkChatMessage {
  role : Role;
  content : string;
}.

(** [messagesWithContext]: the system prompt, then the messages, the last one
    with the chart context appended when it is a user message. *)
Definition messagesWithContext (SYSTEM_PROMPT contextInfo : string)
    (messages : list ChatMessage) : list ChatMessage :=
  mkChatMessage role_system SYSTEM_PROMPT
  :: imap (fun idx m =>
             if Nat.eqb idx (length messages - 1)
                && match role m with role_user => true | _ => false end
             then mkChatMessage (role m) (content m ++ contextInfo)%string
             else mkChatMessage (role m) (content m))
          messages.

(** ** More vocabulary *)

(** Every number the series holds satisfies [P]. *)
Definition all_defined (P : Q -> Prop) (l : series) : Prop :=
  forall i v, l !! i = Some (Some v) -> P v.

(** Prices that never fall, and prices that always fall. *)
Definition non_decreasing (data : list Q) : Prop :=
  forall i a b, data !! i = Some a -> data !! S i = Some b -> (a <= b)%Q.
Definition strictly_decreasing (data : list Q) : Prop :=
  forall i a b, data !! i = Some a -> data !! S i = Some b -> (b < a)%Q.

(** The event of the opposite direction at the same time. *)
Definition flip (ev : Crossover) : Crossover :=
  mkCrossover (time ev)
    match type ev with bullish => bearish | bearish => bullish end.

(** The fields a chart action is read from. *)
Definition actionKeys : list string :=
  [ "type"; "symbol"; "timeframe"; "from"; "to"; "indicator"; "params";
    "points"; "region"; "annotation"; "range" ].

(** The optional fields of the chart actions, each with the tag of its
    action. *)
Definition optionalFields : list (string * string) :=
  [ ("LOAD_CANDLES", "from"); ("LOAD_CANDLES", "to");
    ("ADD_INDICATOR", "params") ].

(** The text of the marker of a region boundary: the prefixed label, or the
    empty text without a label. *)
Definition boundary_text (prefix : string) (label : option string) : string :=
  match label with
  | Some l => if decide (l = "") then "" else (prefix ++ l)%string
  | None => ""
  end.

(** The commands that set the symbol or the timeframe of the state. *)
Definition retargets (action : ChartAction) : bool :=
  match action with
  | SET_SYMBOL _ | SET_TIMEFRAME _ => true
  | _ => false
  end.


(** The state with other candles, not loading. *)
Definition with_candles (state : ChartContextState) (data : list Candle)
    : ChartContextState :=
  mkState (symbol state) (timeframe state) data (indicators state)
    (visibleFrom state) (visibleTo state) (highlights state)
    (annotations state) false.

(** * Facts *)

Section EMA.
Variables (data : list Q) (period : Z) (m : Q).

Lemma calculateEMA_loop_length rest i ema :
  length (calculateEMA_loop data period m i rest ema) = length rest.
Proof.
  revert i ema; induction rest as [|d rest IH]; intros i ema; simpl; [done|].
  repeat case_match; simpl; by rewrite IH.
Qed.

Lemma calculateEMA_loop_warmup rest i ema k :
  (Z.of_nat (i + k) < period - 1)%Z -> k < length rest ->
  calculateEMA_loop data period m i rest ema !! k = Some None.
Proof.
  revert i ema k; induction rest as [|d rest IH]; intros i ema k Hk Hlen;
    simpl in *; [lia|].
  destruct k as [|k].
  - destruct (Z.ltb_spec (Z.of_nat i) (period - 1)); [done|lia].
  - destruct (Z.ltb_spec (Z.of_nat i) (period - 1)); [|lia].
    simpl. apply IH; lia.
Qed.

Lemma calculateEMA_loop_seed rest i ema k :
  Z.of_nat (i + k) = (period - 1)%Z -> k < length rest ->
  calculateEMA_loop data period m i rest ema !! k
  = Some (Some (sum (take (Z.to_nat period) data) / inject_Z period)%Q).
Proof.
  revert i ema k; induction rest as [|d rest IH]; intros i ema k Hk Hlen;
    simpl in *; [lia|].
  destruct k as [|k].
  - destruct (Z.ltb_spec (Z.of_nat i) (period - 1)); [lia|].
    destruct (Z.eqb_spec (Z.of_nat i) (period - 1)); [done|lia].
  - destruct (Z.ltb_spec (Z.of_nat i) (period - 1)); [|lia].
    simpl. apply IH; lia.
Qed.

Lemma calculateEMA_loop_defined rest i ema k :
  (period - 1 <= Z.of_nat (i + k))%Z -> k < length rest ->
  exists e, calculateEMA_loop data period m i rest ema !! k = Some (Some e).
Proof.
  revert i ema k; induction rest as [|d rest IH]; intros i ema k Hk Hlen;
    simpl in *; [lia|].
  destruct k as [|k].
  - destruct (Z.ltb_spec (Z.of_nat i) (period - 1)); [lia|].
    destruct (Z.eqb_spec (Z.of_nat i) (period - 1)); simpl; eauto.
  - repeat case_match; simpl; apply IH; lia.
Qed.

Lemma calculateEMA_loop_step rest i ema k d e :
  (period - 1 < Z.of_nat (i + S k))%Z ->
  rest !! S k = Some d ->
  calculateEMA_loop data period m i rest ema !! k = Some (Some e) ->
  calculateEMA_loop data period m i rest ema !! S k
  = Some (Some ((d - e) * m + e)%Q).
Proof.
  revert i ema k; induction rest as [|a rest IH]; intros i ema k Hk Hd He;
    [done|].
  destruct k as [|k].
  - destruct rest as [|d' rest]; [done|]. simpl in Hd. simplify_eq.
    assert (Hnext : forall x,
      calculateEMA_loop data period m (S i) (d :: rest) (Some x) !! 0
      = Some (Some ((d - x) * m + x)%Q)).
    { intros x. cbn [calculateEMA_loop].
      destruct (Z.ltb_spec (Z.of_nat (S i)) (period - 1)); [lia|].
      destruct (Z.eqb_spec (Z.of_nat (S i)) (period - 1)); [lia|done]. }
    cbn [calculateEMA_loop] in He |- *.
    destruct (Z.of_nat i <? period - 1)%Z; [done|].
    destruct (Z.of_nat i =? period - 1)%Z; simpl in He; simplify_eq;
      apply Hnext.
  - cbn [calculateEMA_loop] in He |- *.
    repeat case_match; simpl in He |- *; (eapply IH; [lia|done..]).
Qed.
End EMA.


Lemma calculateEMA_length data period :
  length (calculateEMA data period) = length data.
Proof. apply calculateEMA_loop_length. Qed.

Lemma calculateEMA_warmup data period i :
  (Z.of_nat i < period - 1)%Z -> i < length data ->
  calculateEMA data period !! i = Some None.
Proof. intros. by apply calculateEMA_loop_warmup. Qed.

Lemma calculateEMA_defined data period i :
  (period - 1 <= Z.of_nat i)%Z -> i < length data ->
  exists e, calculateEMA data period !! i = Some (Some e).
Proof. intros. by apply calculateEMA_loop_defined. Qed.

Lemma calculateEMA_seed data period :
  (1 <= period <= Z.of_nat (length data))%Z ->
  calculateEMA data period !! Z.to_nat (period - 1)
  = Some (Some (mean (take (Z.to_nat period) data))).
Proof.
  intros Hp. unfold calculateEMA, mean.
  rewrite length_take, Nat.min_l, Z2Nat.id by lia.
  apply calculateEMA_loop_seed; simpl; lia.
Qed.

Lemma calculateEMA_step data period i d :
  (1 <= period)%Z -> (period - 1 < Z.of_nat i)%Z -> data !! i = Some d ->
  exists e, calculateEMA data period !! (i - 1) = Some (Some e)
    /\ calculateEMA data period !! i
       = Some (Some ((d - e) * (2 / inject_Z (period + 1)) + e)%Q).
Proof.
  intros Hp Hi Hd. pose proof (lookup_lt_Some _ _ _ Hd) as Hlt.
  destruct i as [|i]; [lia|]. replace (S i - 1) with i by lia.
  destruct (calculateEMA_defined data period i) as [e He]; [lia..|].
  exists e. split; [done|].
  unfold calculateEMA in *. by eapply calculateEMA_loop_step.
Qed.

(** C2. For [1 <= p <= data.length], [calculateEMA(data, p)] is null below
    index [p-1], is the arithmetic mean of the first [p] values at index
    [p-1], and at every later index [i] is
    [(data[i] - ema[i-1]) * (2/(p+1)) + ema[i-1]]; for [data.length < p] the
    whole output is null.  On the closes 1..10 with [p = 3] the first two
    entries are null, the third is 2 and the fourth is 3. *)
Theorem calculateEMA_spec :
  (forall (data : list Q) (p : Z), (1 <= p)%Z ->
     let ema := calculateEMA data p in
     ((p <= Z.of_nat (length data))%Z ->
        (forall i, (Z.of_nat i < p - 1)%Z -> ema !! i = Some None)
        /\ ema !! Z.to_nat (p - 1)
           = Some (Some (mean (take (Z.to_nat p) data)))
        /\ (forall i d, (p - 1 < Z.of_nat i)%Z -> data !! i = Some d ->
              exists e, ema !! (i - 1) = Some (Some e)
                /\ ema !! i
                   = Some (Some ((d - e) * (2 / inject_Z (p + 1)) + e)%Q)))
     /\ ((Z.of_nat (length data) < p)%Z ->
           length ema = length data
           /\ forall i, i < length data -> ema !! i = Some None))
  /\ (let ema := calculateEMA [1;2;3;4;5;6;7;8;9;10]%Q 3 in
      ema !! 0 = Some None /\ ema !! 1 = Some None
      /\ (exists v, ema !! 2 = Some (Some v) /\ (v == 2)%Q)
      /\ (exists v, ema !! 3 = Some (Some v) /\ (v == 3)%Q)).
Proof.
  split.
  - intros data p Hp ema. split.
    + intros Hlen. split; [|split].
      * intros i Hi. apply calculateEMA_warmup; lia.
      * apply calculateEMA_seed; lia.
      * intros i d Hi Hd. by apply calculateEMA_step.
    + intros Hlen. split; [apply calculateEMA_length|].
      intros i Hi. apply calculateEMA_warmup; lia.
  - cbv zeta. repeat split; try reflexivity.
    + eexists. split; [reflexivity|]. reflexivity.
    + eexists. split; [reflexivity|]. reflexivity.
Qed.

Lemma calculateEMA_spec_witness :
  calculateEMA [1;2;3;4]%Q 3 !! 2 = Some (Some (mean [1;2;3]%Q))
  /\ exists e, calculateEMA [1;2;3;4]%Q 3 !! 2 = Some (Some e)
       /\ calculateEMA [1;2;3;4]%Q 3 !! 3
          = Some (Some ((4 - e) * (2 / inject_Z 4) + e)%Q).
Proof.
  assert (H3 : (1 <= 3)%Z) by lia.
  assert (Hlen : (3 <= Z.of_nat (length [1;2;3;4]%Q))%Z) by (simpl; lia).
  destruct (proj1 (proj1 calculateEMA_spec [1;2;3;4]%Q 3%Z H3) Hlen)
    as (_ & Hseed & Hstep).
  split; [exact Hseed|].
  apply (Hstep 3 4%Q); [simpl; lia|reflexivity].
Defined.

(** ** calculateMACD *)

Lemma diff_series_length a b : length (diff_series a b) = length a.
Proof. apply length_imap. Qed.

Lemma diff_series_lookup a b i :
  diff_series a b !! i
  = match a !! i, b !! i with
    | Some (Some x), Some (Some y) => Some (Some (x - y)%Q)
    | Some _, _ => Some None
    | None, _ => None
    end.
Proof.
  unfold diff_series. rewrite list_lookup_imap.
  destruct (a !! i) as [[x|]|]; simpl; [|done..].
  by destruct (b !! i) as [[y|]|].
Qed.

Lemma defined_from_cons a l k :
  defined_from (a :: l) k ->
  match k with
  | 0 => is_Some a /\ defined_from l 0
  | S k' => a = None /\ defined_from l k'
  end.
Proof.
  intros H. destruct k as [|k'].
  - split.
    + destruct (H 0) as [_ [v Hv]]; simpl; [lia..|]. simpl in Hv.
      by simplify_eq.
    + intros i Hi. destruct (H (S i)) as [_ Hd]; [simpl; lia|].
      split; [lia|]. intros _. apply Hd. lia.
  - split.
    + destruct (H 0) as [Hn _]; simpl; [lia|].
      specialize (Hn ltac:(lia)). simpl in Hn. by simplify_eq.
    + intros i Hi. destruct (H (S i)) as [Hn Hd]; [simpl; lia|].
      split; intros ?; [apply Hn|apply Hd]; lia.
Qed.

Lemma defined_from_first l k k' :
  defined_from l k -> first_defined l k' -> k' = k.
Proof.
  intros Hd [[v Hv] Hbelow].
  pose proof (lookup_lt_Some _ _ _ Hv) as Hlt.
  destruct (Hd k' Hlt) as [Hn _].
  destruct (decide (k' < k)) as [Hk|Hk]; [rewrite Hn in Hv by done; done|].
  destruct (decide (k < k')) as [Hk'|Hk']; [|lia].
  destruct (Hd k ltac:(lia)) as [_ [w Hw]]; [lia|].
  rewrite Hbelow in Hw by done. done.
Qed.

Lemma calculateEMA_defined_from data period :
  defined_from (calculateEMA data period) (Z.to_nat (period - 1)).
Proof.
  intros i Hi. rewrite calculateEMA_length in Hi. split; intros Hk.
  - apply calculateEMA_warmup; lia.
  - apply calculateEMA_defined; lia.
Qed.

Lemma diff_series_defined_from a b ka kb :
  length a = length b -> defined_from a ka -> defined_from b kb ->
  defined_from (diff_series a b) (Nat.max ka kb).
Proof.
  intros Hlen Ha Hb i Hi. rewrite diff_series_length in Hi.
  rewrite diff_series_lookup.
  destruct (Ha i Hi) as [Han Had]. destruct (Hb i ltac:(lia)) as [Hbn Hbd].
  split; intros Hk.
  - destruct (decide (i < ka)) as [?|?].
    + by rewrite Han.
    + destruct Had as [x ->]; [lia|]. rewrite Hbn by lia. done.
  - destruct Had as [x ->]; [lia|]. destruct Hbd as [y ->]; [lia|]. eauto.
Qed.

Lemma signalLine_loop_length sig l idx :
  length (signalLine_loop sig l idx) = length l.
Proof.
  revert idx; induction l as [|[v|] l IH]; intros idx; simpl; by rewrite ?IH.
Qed.

Lemma signalLine_loop_lookup sig l k idx i :
  defined_from l k -> i < length l ->
  signalLine_loop sig l idx !! i
  = Some (if decide (i < k) then None
          else default None (sig !! (idx + (i - k)))).
Proof.
  revert k idx i; induction l as [|a l IH]; intros k idx i Hd Hi;
    simpl in Hi; [lia|].
  apply defined_from_cons in Hd. destruct k as [|k].
  - destruct Hd as [[v ->] Hd]. destruct i as [|i]; simpl.
    + by rewrite Nat.add_0_r.
    + rewrite (IH 0) by (done || lia). simpl.
      by replace (S (idx + (i - 0))) with (idx + S i) by lia.
  - destruct Hd as [-> Hd]. destruct i as [|i]; simpl; [done|].
    rewrite (IH k) by (done || lia).
    destruct (decide (i < k)), (decide (S i < S k)); (done || lia).
Qed.

Lemma validValues_length l k :
  defined_from l k -> length (validValues l) = length l - k.
Proof.
  unfold validValues.
  revert k; induction l as [|a l IH]; intros k Hd; [done|].
  apply defined_from_cons in Hd. destruct k as [|k].
  - destruct Hd as [[v ->] Hd]. cbn. rewrite (IH 0) by done. lia.
  - destruct Hd as [-> Hd]. cbn. by rewrite (IH k).
Qed.

Lemma validValues_lookup l k j v :
  defined_from l k ->
  validValues l !! j = Some v <-> l !! (k + j) = Some (Some v).
Proof.
  unfold validValues.
  revert k j; induction l as [|a l IH]; intros k j Hd.
  - by rewrite !lookup_nil.
  - apply defined_from_cons in Hd. destruct k as [|k].
    + destruct Hd as [[w ->] Hd]. cbn.
      destruct j as [|j]; cbn; [|apply (IH 0 j Hd)].
      split; intros ?; by simplify_eq.
    + destruct Hd as [-> Hd]. cbn. apply (IH k j Hd).
Qed.

Lemma macdLine_defined_from data fast slow signal :
  defined_from (macdLine (calculateMACD data fast slow signal))
    (Nat.max (Z.to_nat (fast - 1)) (Z.to_nat (slow - 1))).
Proof.
  apply diff_series_defined_from; [by rewrite !calculateEMA_length|..];
    apply calculateEMA_defined_from.
Qed.

Lemma calculateMACD_length data fast slow signal :
  length (macdLine (calculateMACD data fast slow signal)) = length data
  /\ length (signalLine (calculateMACD data fast slow signal)) = length data
  /\ length (histogram (calculateMACD data fast slow signal)) = length data.
Proof.
  simpl. rewrite !diff_series_length, signalLine_loop_length,
    !diff_series_length, calculateEMA_length. done.
Qed.

Lemma macdLine_lookup data fast slow signal i :
  i < length data ->
  macdLine (calculateMACD data fast slow signal) !! i
  = match calculateEMA data fast !! i, calculateEMA data slow !! i with
    | Some (Some f), Some (Some s) => Some (Some (f - s)%Q)
    | _, _ => Some None
    end.
Proof.
  intros Hi. cbn [calculateMACD macdLine]. rewrite diff_series_lookup.
  destruct (lookup_lt_is_Some_2 (calculateEMA data fast) i) as [x ->];
    [by rewrite calculateEMA_length|].
  destruct (lookup_lt_is_Some_2 (calculateEMA data slow) i) as [y ->];
    [by rewrite calculateEMA_length|].
  by destruct x, y.
Qed.

Lemma histogram_lookup data fast slow signal i :
  let r := calculateMACD data fast slow signal in
  i < length data ->
  histogram r !! i
  = match macdLine r !! i, signalLine r !! i with
    | Some (Some m), Some (Some s) => Some (Some (m - s)%Q)
    | _, _ => Some None
    end.
Proof.
  intros r Hi.
  destruct (calculateMACD_length data fast slow signal) as (Hlm & Hls & _).
  fold r in Hlm, Hls.
  change (histogram r) with (diff_series (macdLine r) (signalLine r)).
  rewrite diff_series_lookup.
  destruct (lookup_lt_is_Some_2 (macdLine r) i) as [x ->]; [lia|].
  destruct (lookup_lt_is_Some_2 (signalLine r) i) as [y ->]; [lia|].
  by destruct x, y.
Qed.

(** The signal line: null below the first MACD value at [k], and from [k] on
    the signal EMA re-indexed from [k]. *)
Lemma signalLine_lookup data fast slow signal k i :
  let r := calculateMACD data fast slow signal in
  defined_from (macdLine r) k -> i < length data ->
  signalLine r !! i
  = Some (if decide (i < k) then None
          else default None
                 (calculateEMA (validValues (macdLine r)) signal !! (i - k))).
Proof.
  intros r Hshape Hi.
  destruct (calculateMACD_length data fast slow signal) as (Hlm & _ & _).
  fold r in Hlm.
  change (signalLine r)
    with (signalLine_loop (calculateEMA (validValues (macdLine r)) signal)
            (macdLine r) 0).
  by rewrite (signalLine_loop_lookup _ _ k) by (done || lia).
Qed.

Lemma signalLine_all_null data fast slow signal :
  let r := calculateMACD data fast slow signal in
  (forall i, i < length data -> macdLine r !! i = Some None) ->
  forall i, i < length data -> signalLine r !! i = Some None.
Proof.
  intros r Hnull i Hi.
  pose proof (macdLine_defined_from data fast slow signal) as Hshape.
  fold r in Hshape.
  destruct (calculateMACD_length data fast slow signal) as (Hlm & _ & _).
  fold r in Hlm.
  unfold r. rewrite (signalLine_lookup _ _ _ _ _ _ Hshape Hi).
  destruct (decide (i < _)) as [|Hge]; [done|]. exfalso.
  destruct (Hshape i ltac:(lia)) as [_ [v Hv]]; [lia|].
  fold r in Hv. rewrite Hnull in Hv by done. done.
Qed.

(** C3. In [calculateMACD] the MACD line at [i] is [fastEMA[i] - slowEMA[i]]
    where both are numbers and null otherwise.  With [k] the index of the
    first MACD value, the valid MACD values are the MACD line re-indexed from
    [k], the signal line is null below [k] and at [k + j] is entry [j] of the
    EMA of period [signal] of the valid values; so for [1 <= signal] its first
    number is at index [k + signal - 1] (or it is null throughout when the
    data end before that index).  Without any MACD value the signal line is
    null throughout.  The histogram at [i] is [macdLine[i] - signalLine[i]]
    where both are numbers, else null. *)
Theorem calculateMACD_spec (data : list Q) (fast slow signal : Z) :
  let r := calculateMACD data fast slow signal in
  let fastEMA := calculateEMA data fast in
  let slowEMA := calculateEMA data slow in
  let signalEMA := calculateEMA (validValues (macdLine r)) signal in
  (forall i, i < length data ->
     macdLine r !! i
     = match fastEMA !! i, slowEMA !! i with
       | Some (Some f), Some (Some s) => Some (Some (f - s)%Q)
       | _, _ => Some None
       end)
  /\ (forall k, first_defined (macdLine r) k ->
        (forall j v, validValues (macdLine r) !! j = Some v
                     <-> macdLine r !! (k + j) = Some (Some v))
        /\ (forall i, i < k -> signalLine r !! i = Some None)
        /\ (forall j, k + j < length data ->
              signalLine r !! (k + j) = signalEMA !! j)
        /\ ((1 <= signal)%Z ->
              (k + Z.to_nat (signal - 1) < length data ->
                 first_defined (signalLine r) (k + Z.to_nat (signal - 1)))
              /\ (length data <= k + Z.to_nat (signal - 1) ->
                    forall i, i < length data ->
                              signalLine r !! i = Some None)))
  /\ ((forall i, i < length data -> macdLine r !! i = Some None) ->
        forall i, i < length data -> signalLine r !! i = Some None)
  /\ (forall i, i < length data ->
        histogram r !! i
        = match macdLine r !! i, signalLine r !! i with
          | Some (Some m), Some (Some s) => Some (Some (m - s)%Q)
          | _, _ => Some None
          end).
Proof.
  intros r fastEMA slowEMA signalEMA.
  split; [intros i; apply macdLine_lookup|].
  split; [|split; [apply signalLine_all_null|intros i; apply histogram_lookup]].
  intros k Hfirst.
  pose proof (macdLine_defined_from data fast slow signal) as Hshape.
  fold r in Hshape.
  pose proof (calculateMACD_length data fast slow signal) as (Hlm & Hls & Hlh).
  fold r in Hlm, Hls, Hlh.
  rewrite <- (defined_from_first _ _ _ Hshape Hfirst) in Hshape.
  assert (Hk : k < length data).
  { destruct Hfirst as [[v Hv] _]. apply lookup_lt_Some in Hv. lia. }
  assert (Hvalid : length signalEMA = length data - k).
  { unfold signalEMA. by rewrite calculateEMA_length,
      (validValues_length _ k), Hlm. }
  assert (Hsig : forall i, i < length data ->
            signalLine r !! i
            = Some (if decide (i < k) then None
                    else default None (signalEMA !! (i - k)))).
  { intros i Hi. by apply signalLine_lookup. }
  assert (Hsig' : forall j, k + j < length data ->
            signalLine r !! (k + j) = signalEMA !! j).
  { intros j Hj. rewrite Hsig by done.
    destruct (decide (k + j < k)); [lia|].
    replace (k + j - k) with j by lia.
    destruct (lookup_lt_is_Some_2 signalEMA j) as [x Hx]; [lia|].
    by rewrite Hx. }
  split; [|split; [|split]].
  - intros j v. by apply validValues_lookup.
  - intros i Hi. rewrite Hsig by lia. by destruct (decide (i < k)).
  - done.
  - intros Hs. split.
    + intros Hlt. split.
      * rewrite Hsig' by done.
        apply calculateEMA_defined; [lia|].
        rewrite (validValues_length _ k), Hlm by done. lia.
      * intros j Hj. destruct (decide (j < k)) as [Hjk|Hjk].
        { rewrite Hsig by lia. by destruct (decide (j < k)). }
        replace j with (k + (j - k)) by lia. rewrite Hsig' by lia.
        apply calculateEMA_warmup; [lia|].
        rewrite (validValues_length _ k), Hlm by done. lia.
    + intros Hge i Hi. destruct (decide (i < k)) as [Hik|Hik].
      { rewrite Hsig by lia. by destruct (decide (i < k)). }
      replace i with (k + (i - k)) by lia. rewrite Hsig' by lia.
      apply calculateEMA_warmup; [lia|].
      rewrite (validValues_length _ k), Hlm by done. lia.
Qed.

Lemma calculateMACD_spec_witness :
  first_defined (signalLine (calculateMACD [1;2;3;4;5]%Q 2 3 2)) 3.
Proof.
  assert (Hk : first_defined (macdLine (calculateMACD [1;2;3;4;5]%Q 2 3 2)) 2).
  { split; [eexists; reflexivity|].
    intros [|[|j]] Hj; [reflexivity..|lia]. }
  assert (Hs : (1 <= 2)%Z) by lia.
  destruct (calculateMACD_spec [1;2;3;4;5]%Q 2 3 2) as (_ & Hsignal & _).
  destruct (Hsignal 2 Hk) as (_ & _ & _ & Hsig).
  apply (proj1 (Hsig Hs)). simpl. lia.
Defined.

(** ** calculateRSI *)

Lemma Qgt_bool_true x y : Qgt_bool x y = true <-> (y < x)%Q.
Proof.
  unfold Qgt_bool. rewrite negb_true_iff, <- not_true_iff_false, Qle_bool_iff.
  split; [apply Qnot_le_lt|apply Qlt_not_le].
Qed.

Lemma Qgt_bool_false x y : Qgt_bool x y = false <-> (x <= y)%Q.
Proof.
  unfold Qgt_bool. rewrite negb_false_iff. apply Qle_bool_iff.
Qed.

Lemma price_changes_length data :
  length (price_changes data) = length data - 1.
Proof.
  induction data as [|a [|b data] IH]; [done..|].
  change (price_changes (a :: b :: data))
    with ((b - a)%Q :: price_changes (b :: data)).
  simpl in *. rewrite IH. lia.
Qed.

Lemma price_changes_lookup data i a b :
  data !! i = Some a -> data !! S i = Some b ->
  price_changes data !! i = Some (b - a)%Q.
Proof.
  revert i; induction data as [|x [|y data] IH]; intros i Ha Hb; [done..|].
  change (price_changes (x :: y :: data))
    with ((y - x)%Q :: price_changes (y :: data)).
  destruct i as [|i]; simpl in *; [by simplify_eq|]. by apply IH.
Qed.

Lemma change_at_nat changes i :
  change_at changes (Z.of_nat i) = changes !! i.
Proof.
  unfold change_at. destruct (Z.ltb_spec (Z.of_nat i) 0); [lia|].
  by rewrite Nat2Z.id.
Qed.

Lemma avgs_iter_shift period changes start acc k :
  avgs_iter period changes (S start)
    (wilder_step period acc (changes !! start)) k
  = avgs_iter period changes start acc (S k).
Proof.
  induction k as [|k IH]; simpl; [by rewrite Nat.add_0_r|].
  rewrite IH. simpl. by replace (start + S k) with (S (start + k)) by lia.
Qed.

Lemma smooth_loop_length period changes idx acc :
  length (smooth_loop period changes idx acc) = length idx.
Proof. revert acc; induction idx as [|i idx IH]; intros acc; simpl; auto. Qed.

Lemma smooth_loop_lookup period changes start n acc j :
  j < n ->
  smooth_loop period changes (seqZ (Z.of_nat start) (Z.of_nat n)) acc !! j
  = Some (Some (rsi_value (avgs_iter period changes start acc (S j)).1
                          (avgs_iter period changes start acc (S j)).2)).
Proof.
  revert start n acc; induction j as [|j IH]; intros start n acc Hj;
    (destruct n as [|n]; [lia|]);
    rewrite Nat2Z.inj_succ, seqZ_cons by lia;
    cbn [smooth_loop]; rewrite change_at_nat.
  - simpl. by rewrite Nat.add_0_r.
  - rewrite lookup_cons.
    replace (Z.succ (Z.of_nat start)) with (Z.of_nat (S start)) by lia.
    replace (Z.pred (Z.succ (Z.of_nat n))) with (Z.of_nat n) by lia.
    rewrite IH by lia. by rewrite !avgs_iter_shift.
Qed.

(** The shape of the output on an input that passes the length guard. *)
Lemma calculateRSI_long data period :
  (0 <= period)%Z -> (period + 1 <= Z.of_nat (length data))%Z ->
  calculateRSI data period
  = replicate (Z.to_nat period + 1) None
    ++ [Some (rsi_value (rsi_seed period (price_changes data)).1
                        (rsi_seed period (price_changes data)).2)]
    ++ smooth_loop period (price_changes data)
         (seqZ (Z.of_nat (Z.to_nat period + 1))
               (Z.of_nat (length data - 1 - (Z.to_nat period + 1))))
         (rsi_seed period (price_changes data)).
Proof.
  intros Hp Hlen. unfold calculateRSI, rsi_seed.
  destruct (Z.ltb_spec (Z.of_nat (length data)) (period + 1)); [lia|].
  destruct (fold_left seed_step _ _) as [sumGain sumLoss]. cbn [fst snd].
  rewrite price_changes_length.
  replace (Z.of_nat (Z.to_nat period + 1)) with (period + 1)%Z by lia.
  replace (Z.of_nat (length data - 1 - (Z.to_nat period + 1)))
    with (Z.max 0 (Z.of_nat (length data - 1) - (period + 1))) by lia.
  assert (Hmax : forall m n, seqZ m (Z.max 0 n) = seqZ m n).
  { intros m n. unfold seqZ. f_equal. f_equal. lia. }
  rewrite Hmax, Nat.add_1_r. cbn [replicate app]. do 2 f_equal.
  rewrite (const_fmap _ _ None) by done.
  rewrite length_take, price_changes_length. f_equal. lia.
Qed.

Lemma fold_Qplus_proper l a b :
  (a == b)%Q -> (fold_left Qplus l a == fold_left Qplus l b)%Q.
Proof.
  revert a b; induction l as [|x l IH]; intros a b Hab; simpl; [done|].
  apply IH. by rewrite Hab.
Qed.

Lemma fold_Qplus_shift l a x :
  (fold_left Qplus l (a + x) == x + fold_left Qplus l a)%Q.
Proof.
  revert a; induction l as [|y l IH]; intros a; simpl; [ring|].
  rewrite <- IH. apply fold_Qplus_proper. ring.
Qed.

Lemma sum_cons x l : (sum (x :: l) == x + sum l)%Q.
Proof. apply fold_Qplus_shift. Qed.

Lemma seed_step_sums changes acc :
  ((fold_left seed_step changes acc).1 == acc.1 + sum (gains changes))%Q
  /\ ((fold_left seed_step changes acc).2 == acc.2 + sum (losses changes))%Q.
Proof.
  revert acc; induction changes as [|c changes IH]; intros acc.
  - unfold sum. simpl. split; ring.
  - destruct (IH (seed_step acc c)) as [H1 H2].
    change (fold_left seed_step (c :: changes) acc)
      with (fold_left seed_step changes (seed_step acc c)).
    rewrite H1, H2.
    change (gains (c :: changes))
      with ((if Qgt_bool c 0 then c else 0%Q) :: gains changes).
    change (losses (c :: changes))
      with ((if Qgt_bool c 0 then 0%Q else Qabs c) :: losses changes).
    rewrite !sum_cons.
    unfold seed_step. destruct (Qgt_bool c 0); simpl; split; ring.
Qed.

Lemma inject_Z_pos p : (1 <= p)%Z -> (0 < inject_Z p)%Q.
Proof. intros Hp. change 0%Q with (inject_Z 0). rewrite <- Zlt_Qlt. lia. Qed.

Lemma inject_Z_pred_nonneg p : (1 <= p)%Z -> (0 <= inject_Z (p - 1))%Q.
Proof. intros Hp. change 0%Q with (inject_Z 0). rewrite <- Zle_Qle. lia. Qed.

Lemma Qdiv_nonneg a c : (0 <= a)%Q -> (0 < c)%Q -> (0 <= a / c)%Q.
Proof. intros Ha Hc. apply Qle_shift_div_l; [done|]. lra. Qed.

Lemma rsi_value_guard g l :
  ((l == 0)%Q -> rsi_value g l = 100%Q)
  /\ (~ (l == 0)%Q -> rsi_value g l = (100 - 100 / (1 + g / l))%Q).
Proof.
  unfold rsi_value. split; intros Hl.
  - apply Qeq_bool_iff in Hl. by rewrite Hl.
  - destruct (Qeq_bool l 0) eqn:E; [|done].
    apply Qeq_bool_iff in E. done.
Qed.

Lemma rsi_value_range g l :
  (0 <= g)%Q -> (0 <= l)%Q -> (0 <= rsi_value g l <= 100)%Q.
Proof.
  intros Hg Hl. destruct (Qeq_dec l 0) as [Hz|Hz].
  - rewrite (proj1 (rsi_value_guard g l) Hz). lra.
  - rewrite (proj2 (rsi_value_guard g l) Hz).
    assert (Hpos : (0 < l)%Q).
    { destruct (Qle_lt_or_eq _ _ Hl) as [?|E]; [done|]. by symmetry in E. }
    pose proof (Qdiv_nonneg g l Hg Hpos) as Hrs.
    set (rs := (g / l)%Q) in *.
    assert (H1 : (0 <= 100 / (1 + rs))%Q) by (apply Qdiv_nonneg; lra).
    assert (H2 : (100 / (1 + rs) <= 100)%Q)
      by (apply Qle_shift_div_r; lra).
    set (x := (100 / (1 + rs))%Q) in *. lra.
Qed.

Lemma gain_of_nonneg c : (0 <= gain_of c)%Q.
Proof.
  destruct c as [c|]; simpl; [|lra].
  destruct (Qgt_bool c 0) eqn:E; [|lra].
  apply Qgt_bool_true in E. lra.
Qed.

Lemma loss_of_nonneg c : (0 <= loss_of c)%Q.
Proof.
  destruct c as [c|]; simpl; [|lra].
  destruct (Qlt_bool c 0); [apply Qabs_nonneg|lra].
Qed.

Lemma seed_step_nonneg a c : nonneg_pair a -> nonneg_pair (seed_step a c).
Proof.
  intros [H1 H2]. unfold seed_step.
  destruct (Qgt_bool c 0) eqn:E; split; simpl; try done.
  - apply Qgt_bool_true in E. lra.
  - pose proof (Qabs_nonneg c). lra.
Qed.

Lemma fold_seed_step_nonneg cs a :
  nonneg_pair a -> nonneg_pair (fold_left seed_step cs a).
Proof.
  revert a; induction cs as [|c cs IH]; intros a Ha; simpl; [done|].
  by apply IH, seed_step_nonneg.
Qed.

Lemma rsi_seed_nonneg p changes :
  (1 <= p)%Z -> nonneg_pair (rsi_seed p changes).
Proof.
  intros Hp. unfold rsi_seed.
  destruct (fold_seed_step_nonneg (take (Z.to_nat p) changes) (0%Q, 0%Q))
    as [H1 H2]; [split; simpl; lra|].
  split; simpl; apply Qdiv_nonneg; auto using inject_Z_pos.
Qed.

Lemma wilder_step_nonneg p a c :
  (1 <= p)%Z -> nonneg_pair a -> nonneg_pair (wilder_step p a c).
Proof.
  intros Hp [H1 H2]. pose proof (inject_Z_pred_nonneg p Hp) as Hq.
  pose proof (gain_of_nonneg c). pose proof (loss_of_nonneg c).
  split; simpl; (apply Qdiv_nonneg; [|by apply inject_Z_pos]).
  - pose proof (Qmult_le_0_compat _ _ H1 Hq). lra.
  - pose proof (Qmult_le_0_compat _ _ H2 Hq). lra.
Qed.

Lemma avgs_iter_inv (P : Q * Q -> Prop) p changes start acc k :
  P acc -> (forall a i, P a -> P (wilder_step p a (changes !! i))) ->
  P (avgs_iter p changes start acc k).
Proof. intros Hacc Hstep. induction k as [|k IH]; simpl; auto. Qed.

(** Every number in the output is [rsi_value] of a pair of averages, and the
    averages keep every property that the seed has and a smoothing round
    preserves. *)
Lemma calculateRSI_values (P : Q * Q -> Prop) data p i v :
  (0 <= p)%Z ->
  P (rsi_seed p (price_changes data)) ->
  (forall a j, P a -> P (wilder_step p a (price_changes data !! j))) ->
  calculateRSI data p !! i = Some (Some v) ->
  exists a, P a /\ v = rsi_value a.1 a.2.
Proof.
  intros Hp Hseed Hstep Hv.
  destruct (Z.ltb_spec (Z.of_nat (length data)) (p + 1)) as [Hs|Hl].
  - unfold calculateRSI in Hv.
    destruct (Z.ltb_spec (Z.of_nat (length data)) (p + 1)); [|lia].
    rewrite list_lookup_fmap in Hv. by destruct (data !! i).
  - rewrite calculateRSI_long in Hv by done.
    apply lookup_app_Some in Hv as [Hv|[Hge Hv]].
    { apply lookup_replicate in Hv as [? _]. done. }
    rewrite length_replicate in Hge, Hv.
    apply lookup_app_Some in Hv as [Hv|[Hge' Hv]].
    { apply list_lookup_singleton_Some in Hv as [_ Hv]. simplify_eq. eauto. }
    simpl in Hge', Hv.
    pose proof (lookup_lt_Some _ _ _ Hv) as Hlt.
    rewrite smooth_loop_length, length_seqZ in Hlt.
    rewrite smooth_loop_lookup in Hv by lia. simplify_eq.
    eexists. split; [|done]. by apply avgs_iter_inv.
Qed.

Lemma calculateRSI_short data p :
  (Z.of_nat (length data) < p + 1)%Z ->
  calculateRSI data p = replicate (length data) None.
Proof.
  intros Hlt. unfold calculateRSI.
  destruct (Z.ltb_spec (Z.of_nat (length data)) (p + 1)); [|lia].
  by apply const_fmap.
Qed.

Lemma calculateRSI_length_long data p :
  (0 <= p)%Z -> (p + 2 <= Z.of_nat (length data))%Z ->
  length (calculateRSI data p) = length data.
Proof.
  intros Hp Hlen. rewrite calculateRSI_long by lia.
  rewrite !length_app, length_replicate, smooth_loop_length, length_seqZ.
  simpl. lia.
Qed.

Lemma calculateRSI_length_edge data p :
  (0 <= p)%Z -> Z.of_nat (length data) = (p + 1)%Z ->
  length (calculateRSI data p) = S (length data).
Proof.
  intros Hp Hlen. rewrite calculateRSI_long by lia.
  rewrite !length_app, length_replicate, smooth_loop_length, length_seqZ.
  simpl. lia.
Qed.

Lemma price_changes_constant data c i d :
  (forall x, x ∈ data -> (x == c)%Q) ->
  price_changes data !! i = Some d -> (d == 0)%Q.
Proof.
  revert i; induction data as [|a [|b data] IH]; intros i Hc Hd; [done..|].
  change (price_changes (a :: b :: data))
    with ((b - a)%Q :: price_changes (b :: data)) in Hd.
  destruct i as [|i]; simpl in Hd.
  - simplify_eq. rewrite (Hc a), (Hc b) by set_solver. ring.
  - apply (IH i); [|done]. intros x Hx. by apply Hc, list_elem_of_further.
Qed.

Lemma seed_step_zero_loss cs a :
  (forall c, c ∈ cs -> (c == 0)%Q) -> (a.2 == 0)%Q ->
  ((fold_left seed_step cs a).2 == 0)%Q.
Proof.
  revert a; induction cs as [|c cs IH]; intros a Hcs Ha; simpl; [done|].
  apply IH; [intros x Hx; by apply Hcs, list_elem_of_further|].
  assert (Hc : (c == 0)%Q) by apply Hcs, list_elem_of_here.
  unfold seed_step. destruct (Qgt_bool c 0); simpl; [done|].
  rewrite Ha, Hc. reflexivity.
Qed.

Lemma wilder_step_zero_loss p a c :
  (forall x, c = Some x -> (x == 0)%Q) -> (a.2 == 0)%Q ->
  ((wilder_step p a c).2 == 0)%Q.
Proof.
  intros Hc Ha. simpl.
  assert (Hl : (loss_of c == 0)%Q).
  { destruct c as [x|]; simpl; [|reflexivity].
    destruct (Qlt_bool x 0) eqn:E; [|reflexivity].
    apply Qgt_bool_true in E. specialize (Hc x eq_refl). lra. }
  rewrite Ha, Hl. unfold Qdiv. ring.
Qed.

(** C4. [calculateRSI(data, p)] for [1 <= p].  With fewer than [p+1] prices
    the output is null at every index.  Otherwise the first [p] price changes
    seed the two averages as the sum of the gains and the sum of the losses
    over [p]; the first number of the output is [rsi_value] of the seed, and
    each later one is [rsi_value] of the averages after one more Wilder round
    [(avg * (p-1) + current) / p] on the gain and on the loss of the change at
    that index, where [rsi_value g l] is 100 when [l] is 0 and
    [100 - 100/(1 + g/l)] otherwise.  Every number of the output lies in
    [0, 100], and on constant prices every number of the output is 100. *)
Theorem calculateRSI_spec (data : list Q) (p : Z) :
  (1 <= p)%Z ->
  let rsi := calculateRSI data p in
  let changes := price_changes data in
  let first := Z.to_nat p + 1 in
  ((Z.of_nat (length data) < p + 1)%Z ->
     length rsi = length data
     /\ forall i, i < length data -> rsi !! i = Some None)
  /\ ((p + 1 <= Z.of_nat (length data))%Z ->
        (forall i a b, data !! i = Some a -> data !! S i = Some b ->
           changes !! i = Some (b - a)%Q)
        /\ ((rsi_avgs p changes 0).1
            == sum (gains (take (Z.to_nat p) changes)) / inject_Z p)%Q
        /\ ((rsi_avgs p changes 0).2
            == sum (losses (take (Z.to_nat p) changes)) / inject_Z p)%Q
        /\ first_defined rsi first
        /\ rsi !! first
           = Some (Some (rsi_value (rsi_avgs p changes 0).1
                                   (rsi_avgs p changes 0).2))
        /\ (forall k, first + S k < length data ->
              rsi !! (first + S k)
              = Some (Some (rsi_value (rsi_avgs p changes (S k)).1
                                      (rsi_avgs p changes (S k)).2)))
        /\ (forall k,
              let current := changes !! (first + k) in
              (rsi_avgs p changes (S k)).1
              = (((rsi_avgs p changes k).1 * inject_Z (p - 1)
                  + gain_of current) / inject_Z p)%Q
              /\ (rsi_avgs p changes (S k)).2
                 = (((rsi_avgs p changes k).2 * inject_Z (p - 1)
                     + loss_of current) / inject_Z p)%Q))
  /\ (forall c, ((0 < c)%Q -> gain_of (Some c) = c /\ loss_of (Some c) = 0%Q)
             /\ ((c < 0)%Q ->
                 gain_of (Some c) = 0%Q /\ loss_of (Some c) = Qabs c)
             /\ ((c == 0)%Q ->
                 gain_of (Some c) = 0%Q /\ loss_of (Some c) = 0%Q))
  /\ (forall g l, ((l == 0)%Q -> rsi_value g l = 100%Q)
               /\ (~ (l == 0)%Q ->
                   rsi_value g l = (100 - 100 / (1 + g / l))%Q))
  /\ (forall i v, rsi !! i = Some (Some v) -> (0 <= v <= 100)%Q)
  /\ (forall c, (forall x, x ∈ data -> (x == c)%Q) ->
        forall i v, rsi !! i = Some (Some v) -> v = 100%Q).
Proof.
  intros Hp rsi changes first.
  split; [|split; [|split; [|split; [|split]]]].
  - intros Hshort. unfold rsi. rewrite calculateRSI_short by done.
    split; [apply length_replicate|].
    intros i Hi. by apply lookup_replicate_2.
  - intros Hlong.
    assert (Hshape := calculateRSI_long data p ltac:(lia) Hlong).
    fold rsi changes first in Hshape.
    assert (Hfirst : rsi !! first
              = Some (Some (rsi_value (rsi_avgs p changes 0).1
                                      (rsi_avgs p changes 0).2))).
    { rewrite Hshape. rewrite lookup_app_r by (rewrite length_replicate; lia).
      rewrite length_replicate, Nat.sub_diag. done. }
    split; [|split; [|split; [|split; [|split; [|split]]]]].
    + intros i a b. apply price_changes_lookup.
    + unfold rsi_avgs, rsi_seed. simpl.
      destruct (seed_step_sums (take (Z.to_nat p) changes) (0%Q, 0%Q))
        as [-> _]. simpl. by rewrite Qplus_0_l.
    + unfold rsi_avgs, rsi_seed. simpl.
      destruct (seed_step_sums (take (Z.to_nat p) changes) (0%Q, 0%Q))
        as [_ ->]. simpl. by rewrite Qplus_0_l.
    + split; [eauto|]. intros j Hj. rewrite Hshape.
      rewrite lookup_app_l by (rewrite length_replicate; lia).
      apply lookup_replicate_2. lia.
    + done.
    + intros k Hk. rewrite Hshape.
      rewrite lookup_app_r by (rewrite length_replicate; lia).
      rewrite length_replicate.
      replace (first + S k - first) with (S k) by lia.
      cbn [app]. rewrite lookup_cons.
      rewrite smooth_loop_lookup by lia. done.
    + intros k. done.
  - intros c. unfold gain_of, loss_of, Qlt_bool. repeat split.
    + apply Qgt_bool_true in H. by rewrite H.
    + apply Qlt_le_weak, Qgt_bool_false in H. by rewrite H.
    + apply Qlt_le_weak, Qgt_bool_false in H. by rewrite H.
    + apply Qgt_bool_true in H. by rewrite H.
    + assert (Hle : (c <= 0)%Q) by lra. apply Qgt_bool_false in Hle.
      by rewrite Hle.
    + assert (Hle : (0 <= c)%Q) by lra. apply Qgt_bool_false in Hle.
      by rewrite Hle.
  - apply rsi_value_guard.
  - intros i v Hv.
    destruct (calculateRSI_values nonneg_pair data p i v) as (a & [Hg Hl] & ->);
      [lia| by apply rsi_seed_nonneg | | done | by apply rsi_value_range].
    intros a j Ha. by apply wilder_step_nonneg.
  - intros c Hc i v Hv.
    destruct (calculateRSI_values (fun a => (a.2 == 0)%Q) data p i v)
      as (a & Hl & ->); [lia| | |done|].
    + unfold rsi_seed. simpl.
      rewrite seed_step_zero_loss; [unfold Qdiv; ring| |reflexivity].
      intros x Hx. apply list_elem_of_lookup in Hx as [j Hx].
      apply lookup_take_Some in Hx as [Hx _].
      by eapply price_changes_constant.
    + intros a j Ha. apply wilder_step_zero_loss; [|done].
      intros x Hx. by eapply price_changes_constant.
    + by apply rsi_value_guard.
Qed.

Lemma calculateRSI_spec_witness :
  calculateRSI [5;5;5;5;5]%Q 2 !! 3 = Some (Some 100%Q)
  /\ calculateRSI [5;5;5;5;5]%Q 2 !! 4 = Some (Some 100%Q).
Proof.
  assert (Hp : (1 <= 2)%Z) by lia.
  destruct (calculateRSI_spec [5;5;5;5;5]%Q 2 Hp)
    as (_ & _ & _ & _ & _ & Hconst).
  assert (H5 : forall x : Q, x ∈ [5;5;5;5;5]%Q -> (x == 5)%Q).
  { intros x Hx. repeat (apply elem_of_cons in Hx as [->|Hx]; [reflexivity|]).
    by apply elem_of_nil in Hx. }
  split.
  - assert (Hv : exists v, calculateRSI [5;5;5;5;5]%Q 2 !! 3 = Some (Some v))
      by (eexists; reflexivity).
    destruct Hv as [v Hv]. rewrite Hv. by rewrite (Hconst 5%Q H5 3 v Hv).
  - assert (Hv : exists v, calculateRSI [5;5;5;5;5]%Q 2 !! 4 = Some (Some v))
      by (eexists; reflexivity).
    destruct Hv as [v Hv]. rewrite Hv. by rewrite (Hconst 5%Q H5 4 v Hv).
Defined.

(** The lengths of the outputs: [calculateEMA] and the three series of
    [calculateMACD] always have the length of the input, and so has
    [calculateRSI] when the input has fewer than [period + 1] or at least
    [period + 2] prices; with exactly [period + 1] prices its output is one
    entry longer. *)
Lemma indicator_lengths data period :
  length (calculateEMA data period) = length data
  /\ (forall slow signal,
        length (macdLine (calculateMACD data period slow signal))
        = length data
        /\ length (signalLine (calculateMACD data period slow signal))
           = length data
        /\ length (histogram (calculateMACD data period slow signal))
           = length data)
  /\ ((Z.of_nat (length data) < period + 1)%Z ->
        calculateRSI data period = replicate (length data) None)
  /\ ((0 <= period)%Z -> (period + 2 <= Z.of_nat (length data))%Z ->
        length (calculateRSI data period) = length data)
  /\ ((0 <= period)%Z -> Z.of_nat (length data) = (period + 1)%Z ->
        length (calculateRSI data period) = S (length data)).
Proof.
  split; [apply calculateEMA_length|].
  split; [intros; apply calculateMACD_length|].
  split; [apply calculateRSI_short|].
  split; [apply calculateRSI_length_long|apply calculateRSI_length_edge].
Qed.

(** C1. The output of an indicator function has the length of its input.
    [calculateRSI] breaks this on an input of exactly [period + 1] prices: on
    the prices [1, 2] with period 1 it returns [null, null, 100], three
    entries for two prices. *)
Theorem calculateRSI_length_mismatch :
  calculateRSI [1; 2]%Q 1 = [None; None; Some 100%Q]
  /\ length (calculateRSI [1; 2]%Q 1) <> length [1; 2]%Q.
Proof. split; [reflexivity|]. simpl. lia. Qed.

(** ** Crossovers *)

Lemma StronglySorted_seq s m : StronglySorted lt (seq s m).
Proof.
  revert s; induction m as [|m IH]; intros s; simpl; constructor; [apply IH|].
  apply Forall_forall. intros i Hi%elem_of_seq. lia.
Qed.

Lemma StronglySorted_lookup_lt {A} (R : relation A) l i j x y :
  StronglySorted R l -> i < j -> l !! i = Some x -> l !! j = Some y -> R x y.
Proof.
  intros Hs. revert i j.
  induction Hs as [|a l Hs IH Hall]; intros i j Hij Hx Hy; [done|].
  destruct j as [|j]; [lia|]. destruct i as [|i]; simpl in *.
  - simplify_eq. rewrite Forall_forall in Hall.
    apply Hall. by eapply list_elem_of_lookup_2.
  - apply (IH i j); (done || lia).
Qed.

Lemma flat_map_ext_elem {A B} (f g : A -> list B) l :
  (forall a, a ∈ l -> f a = g a) -> flat_map f l = flat_map g l.
Proof.
  induction l as [|a l IH]; intros H; simpl; [done|].
  rewrite (H a), IH; [done| |by left]. intros b Hb. apply H. by right.
Qed.

Section Crossovers.
Variables (A B : series) (times : list Z).

Lemma crossover_at_cases i :
  crossover_at A B times i = []
  \/ exists ty, crossover_at A B times i = [mkCrossover (times !! i) ty].
Proof. unfold crossover_at. repeat case_match; eauto. Qed.

Lemma crossover_at_sound i ev :
  1 <= i -> crossover_at A B times i = [ev] ->
  time ev = times !! i /\ crossing A B i (type ev).
Proof.
  intros Hi. unfold crossover_at, crossing.
  destruct (A !! (i - 1)) as [[pa|]|], (A !! i) as [[ca|]|],
    (B !! (i - 1)) as [[pb|]|], (B !! i) as [[cb|]|];
    cbn; rewrite ?andb_false_r; cbn; try done.
  destruct (Qle_bool pa pb) eqn:E1, (Qgt_bool ca cb) eqn:E2; cbn;
    try (intros ?; simplify_eq; split; [done|];
         exists pa, pb, ca, cb; repeat split; try done;
         [by apply Qle_bool_iff|by apply Qgt_bool_true]).
  all: destruct (Qle_bool pb pa) eqn:E3, (Qgt_bool cb ca) eqn:E4; cbn;
    try done;
    intros ?; simplify_eq; split; [done|];
    exists pa, pb, ca, cb; repeat split; try done;
    [by apply Qle_bool_iff|by apply Qgt_bool_true].
Qed.

Lemma crossover_at_complete i ty :
  crossing A B i ty ->
  crossover_at A B times i = [mkCrossover (times !! i) ty].
Proof.
  intros (pa & pb & ca & cb & Hi & Hpa & Hpb & Hca & Hcb & Hty).
  unfold crossover_at. rewrite Hpa, Hpb, Hca, Hcb. cbn.
  destruct ty; destruct Hty as [H1 H2].
  - apply Qle_bool_iff in H1. apply Qgt_bool_true in H2.
    by rewrite H1, H2.
  - assert (E : Qgt_bool ca cb = false)
      by (apply Qgt_bool_false; lra).
    apply Qle_bool_iff in H1. apply Qgt_bool_true in H2.
    rewrite E, andb_false_r, H1, H2. done.
Qed.

Lemma crossing_exclusive i :
  ~ (crossing A B i bullish /\ crossing A B i bearish).
Proof.
  intros [(pa & pb & ca & cb & _ & ? & ? & ? & ? & _ & Hup)
          (pa' & pb' & ca' & cb' & _ & ? & ? & ? & ? & _ & Hdown)].
  simplify_eq. lra.
Qed.

Lemma crossovers_of_indices l :
  StronglySorted lt l -> (forall i, i ∈ l -> 1 <= i) ->
  exists idxs,
    StronglySorted lt idxs
    /\ (forall i, i ∈ idxs <-> i ∈ l /\ exists ty, crossing A B i ty)
    /\ Forall2 (fun i ev => time ev = times !! i /\ crossing A B i (type ev))
         idxs (flat_map (crossover_at A B times) l).
Proof.
  induction 1 as [|a l Hs IH Hall]; intros Hpos.
  - exists []. split; [constructor|]. split; [|constructor].
    intros i. split; [by intros ?%elem_of_nil|by intros [?%elem_of_nil _]].
  - destruct IH as (idxs & Hsorted & Hmem & Hev).
    { intros i Hi. apply Hpos. by right. }
    assert (Ha : 1 <= a) by (apply Hpos; by left).
    simpl. destruct (crossover_at_cases a) as [E|[ty E]]; rewrite E.
    + exists idxs. split; [done|]. split; [|done].
      intros i. rewrite Hmem, elem_of_cons. split; [naive_solver|].
      intros [[->|Hi] [ty Hty]]; [|eauto].
      apply crossover_at_complete in Hty. congruence.
    + destruct (crossover_at_sound a _ Ha E) as [Ht Hc].
      exists (a :: idxs). split; [|split].
      * constructor; [done|]. apply Forall_forall. intros i Hi.
        apply Hmem in Hi as [Hi _]. rewrite Forall_forall in Hall. auto.
      * intros i. rewrite !elem_of_cons, Hmem. naive_solver.
      * simpl. constructor; [done|done].
Qed.
End Crossovers.

Lemma findZeroLineCrossovers_as_MACD A times :
  findZeroLineCrossovers A times
  = findMACDCrossovers A (replicate (length A) (Some 0%Q)) times.
Proof.
  unfold findZeroLineCrossovers, findMACDCrossovers.
  apply flat_map_ext_elem. intros i Hi%elem_of_seq.
  unfold zero_crossover_at, crossover_at.
  rewrite !lookup_replicate_2 by lia. cbn.
  by rewrite !orb_false_r.
Qed.

(** C5. The events of [findMACDCrossovers], in order, are the crossings of
    the two series, one event per index [i] at which series [A] crosses
    series [B], taken by increasing [i]: bullish when
    [prev[A] <= prev[B]] and [curr[A] > curr[B]], bearish when
    [prev[A] >= prev[B]] and [curr[A] < curr[B]], never both, and only where
    all four samples are numbers.  Each event carries [times[i]], so on
    aligned, increasing times the events are in increasing time order.
    [findZeroLineCrossovers] is [findMACDCrossovers] against the constant
    series 0. *)
Theorem crossovers_spec (A B : series) (times : list Z) :
  let events := findMACDCrossovers A B times in
  (exists idxs,
     StronglySorted lt idxs
     /\ (forall i, i ∈ idxs <-> exists ty, crossing A B i ty)
     /\ Forall2 (fun i ev => time ev = times !! i /\ crossing A B i (type ev))
          idxs events)
  /\ (forall i, ~ (crossing A B i bullish /\ crossing A B i bearish))
  /\ (length times = length A -> StronglySorted Z.lt times ->
        StronglySorted earlier events)
  /\ findZeroLineCrossovers A times
     = findMACDCrossovers A (replicate (length A) (Some 0%Q)) times.
Proof.
  intros events.
  destruct (crossovers_of_indices A B times (seq 1 (length A - 1)))
    as (idxs & Hsorted & Hmem & Hev).
  { apply StronglySorted_seq. }
  { intros i Hi%elem_of_seq. lia. }
  fold (findMACDCrossovers A B times) in Hev. fold events in Hev.
  assert (Hmem' : forall i, i ∈ idxs <-> exists ty, crossing A B i ty).
  { intros i. rewrite Hmem. split; [by intros [_ ?]|]. intros [ty Hty].
    split; [|eauto]. destruct Hty as (pa & pb & ca & cb & Hi & _ & _ & Hc & _).
    apply lookup_lt_Some in Hc. apply elem_of_seq. lia. }
  split; [eauto|]. split; [apply crossing_exclusive|].
  split; [|apply findZeroLineCrossovers_as_MACD].
  intros Hlen Htimes. clear Hmem.
  assert (Hrange : forall i, i ∈ idxs -> i < length times).
  { intros i (ty & pa & pb & ca & cb & _ & _ & _ & Hc & _)%Hmem'.
    apply lookup_lt_Some in Hc. lia. }
  clear Hmem'. revert Hsorted Hrange.
  induction Hev as [|i ev idxs events [Ht _] Hev IH]; intros Hsorted Hrange;
    [constructor|].
  apply StronglySorted_cons in Hsorted as [Hi Hsorted].
  constructor.
  - apply IH; [done|]. intros j Hj. apply Hrange. by right.
  - apply Forall_forall. intros ev' Hev'.
    apply list_elem_of_lookup in Hev' as [n Hn].
    destruct (Forall2_lookup_r _ _ _ _ _ Hev Hn) as (j & Hj & Htj & _).
    destruct (lookup_lt_is_Some_2 times i) as [t1 Ht1];
      [apply Hrange; by left|].
    destruct (lookup_lt_is_Some_2 times j) as [t2 Ht2].
    { apply Hrange. right. by eapply list_elem_of_lookup_2. }
    exists t1, t2. rewrite Ht, Htj. split; [done|]. split; [done|].
    apply (StronglySorted_lookup_lt Z.lt times i j); try done.
    rewrite Forall_forall in Hi. apply Hi. by eapply list_elem_of_lookup_2.
Qed.

Lemma crossovers_spec_witness :
  findMACDCrossovers [Some 1; Some 3; Some 1]%Q [Some 2; Some 2; Some 2]%Q
    [10; 20; 30]%Z
  = [mkCrossover (Some 20%Z) bullish; mkCrossover (Some 30%Z) bearish]
  /\ StronglySorted earlier
       (findMACDCrossovers [Some 1; Some 3; Some 1]%Q
          [Some 2; Some 2; Some 2]%Q [10; 20; 30]%Z).
Proof.
  split; [reflexivity|].
  apply (crossovers_spec [Some 1; Some 3; Some 1]%Q [Some 2; Some 2; Some 2]%Q
           [10; 20; 30]%Z); [reflexivity|].
  repeat (constructor; [|repeat (constructor; try lia)]). constructor.
Defined.

(** ** The action schema *)

Lemma bind_Return {A B} (m : outcome A) (k : A -> outcome B) b :
  m ≫= k = Return b <-> exists a, m = Return a /\ k a = Return b.
Proof.
  destruct m as [a|e]; cbn; split; try done; [eauto| |].
  - by intros (a' & [= ->] & ?).
  - by intros (a' & ? & ?).
Qed.

Lemma z_string_Return v s : z_string v = Return s <-> v = Some (JString s).
Proof.
  unfold z_string. split; [|by intros ->].
  repeat case_match; by intros [= ->].
Qed.

Lemma z_number_Return v q :
  z_number v = Return q <-> v = Some (JNumber (Finite q)).
Proof.
  unfold z_number. split; [|by intros ->].
  repeat case_match; by intros [= ->].
Qed.

Lemma z_literal_Return lit v u :
  z_literal lit v = Return u <-> v = Some (JString lit).
Proof.
  unfold z_literal. split.
  - destruct v as [[| | |s| |]|]; try done.
    destruct (String.eqb_spec s lit); [by subst|done].
  - intros ->. rewrite String.eqb_refl. by destruct u.
Qed.

Lemma enum_lookup_Some {A} s (values : list (string * A)) a :
  enum_lookup s values = Some a -> (s, a) ∈ values.
Proof.
  induction values as [|[k x] values IH]; simpl; [done|].
  destruct (String.eqb_spec k s) as [->|_].
  - intros [= ->]. by left.
  - intros H. right. auto.
Qed.

Lemma enum_lookup_is_Some {A} s (values : list (string * A)) :
  s ∈ values.*1 -> is_Some (enum_lookup s values).
Proof.
  induction values as [|[k x] values IH]; simpl; [by intros ?%elem_of_nil|].
  intros [->|Hs]%elem_of_cons.
  - rewrite String.eqb_refl. eauto.
  - destruct (String.eqb k s); eauto.
Qed.

Lemma z_enum_Return {A} (values : list (string * A)) v :
  (exists a, z_enum values v = Return a) <-> is_one_of values.*1 v.
Proof.
  unfold z_enum, is_one_of. split.
  - intros [a Ha]. destruct v as [[| | |s| |]|]; try done.
    destruct (enum_lookup s values) as [a'|] eqn:E; [|done].
    exists s. split; [done|]. apply enum_lookup_Some in E.
    apply list_elem_of_fmap. by exists (s, a').
  - intros (s & -> & Hs). destruct (enum_lookup_is_Some s values Hs) as [a ->].
    eauto.
Qed.

Lemma z_optional_Return {A} (sch : schema A) (P : option json -> Prop) v :
  (forall v, (exists a, sch v = Return a) <-> P v) ->
  (exists r, z_optional sch v = Return r) <-> optionally P v.
Proof.
  intros Hsch. unfold z_optional, optionally. destruct v as [x|].
  - rewrite <- Hsch. split.
    + intros [r Hr]. apply bind_Return in Hr as (a & Ha & _). eauto.
    + intros [[=]|[a Ha]]. rewrite Ha. cbn. eauto.
  - split; eauto.
Qed.

Lemma z_object_Return {A} (shape : list (string * json) -> outcome A)
    (P : list (string * json) -> Prop) v :
  (forall o, (exists a, shape o = Return a) <-> P o) ->
  (exists a, z_object shape v = Return a) <-> is_object P v.
Proof.
  intros Hshape. unfold z_object, is_object. split.
  - intros [a Ha]. destruct v as [[| | | | |o]|]; try done.
    exists o. split; [done|]. apply Hshape. eauto.
  - intros (o & -> & Ho). by apply Hshape.
Qed.

Lemma mapM_Return {A B} (f : A -> outcome B) (P : A -> Prop) l :
  (forall x, (exists y, f x = Return y) <-> P x) ->
  (exists k, mapM f l = Return k) <-> Forall P l.
Proof.
  intros Hf. induction l as [|x l IH]; cbn.
  - split; [constructor|eauto].
  - rewrite Forall_cons, <- IH, <- Hf. split.
    + intros [k Hk]. apply bind_Return in Hk as (y & Hy & Hk).
      apply bind_Return in Hk as (k' & Hk' & _). eauto.
    + intros [[y Hy] [k Hk]]. rewrite Hy. cbn. rewrite Hk. cbn. eauto.
Qed.

Lemma z_array_Return {A} (sch : schema A) (P : option json -> Prop) v :
  (forall v, (exists a, sch v = Return a) <-> P v) ->
  (exists l, z_array sch v = Return l) <-> is_array P v.
Proof.
  intros Hsch. unfold z_array, is_array. split.
  - intros [l Hl]. destruct v as [[| | | |items|]|]; try done.
    exists items. split; [done|].
    apply (mapM_Return (fun x => sch (Some x))); eauto.
  - intros (items & -> & Hitems).
    by apply (mapM_Return (fun x => sch (Some x)) (fun x => P (Some x))).
Qed.

Lemma z_number_is v : (exists q, z_number v = Return q) <-> is_finite_number v.
Proof. unfold is_finite_number. by setoid_rewrite z_number_Return. Qed.

Lemma z_string_is v : (exists s, z_string v = Return s) <-> is_string v.
Proof. unfold is_string. by setoid_rewrite z_string_Return. Qed.

Lemma z_record_number_Return v :
  (exists m, z_record_number v = Return m) <-> is_number_record v.
Proof.
  unfold z_record_number, is_number_record. split.
  - intros [m Hm]. destruct v as [[| | | | |o]|]; try done.
    exists o. split; [done|].
    apply bind_Return in Hm as (kvs & Hkvs & _).
    eapply mapM_Return; [|eauto]. intros kv.
    rewrite <- z_number_is. split.
    + intros [y Hy]. apply bind_Return in Hy as (q & Hq & _). eauto.
    + intros [q Hq]. rewrite Hq. cbn. eauto.
  - intros (o & -> & Ho).
    assert (Hk : exists kvs,
      mapM (fun kv : string * json =>
              q ← z_number (Some kv.2); Return (kv.1, q))
           (record_entries o) = Return kvs).
    { eapply mapM_Return; [|exact Ho]. intros kv.
      rewrite <- z_number_is. split.
      - intros [y Hy]. apply bind_Return in Hy as (q & Hq & _). eauto.
      - intros [q Hq]. rewrite Hq. cbn. eauto. }
    destruct Hk as [kvs ->]. cbn. eauto.
Qed.

Lemma TimeframeSchema_is v :
  (exists a, TimeframeSchema v = Return a) <-> is_one_of timeframes v.
Proof. apply (z_enum_Return [("1h", TF_1h); ("4h", TF_4h); ("1d", TF_1d)]). Qed.

Lemma IndicatorTypeSchema_is v :
  (exists a, IndicatorTypeSchema v = Return a) <-> is_one_of indicatorTypes v.
Proof.
  apply (z_enum_Return [("MACD", MACD_); ("RSI", RSI_); ("EMA", EMA_)]).
Qed.

Lemma PaneTypeSchema_is v :
  (exists a, PaneTypeSchema v = Return a) <-> is_one_of paneTypes v.
Proof.
  apply (z_enum_Return [("price", pane_price); ("indicator", pane_indicator)]).
Qed.

Lemma z_literal_is lit v :
  (exists u, z_literal lit v = Return u) <-> v = Some (JString lit).
Proof.
  split; [intros [u Hu]; by apply z_literal_Return in Hu|].
  intros Hv. exists tt. by apply z_literal_Return.
Qed.

Create HintDb accepts discriminated.
#[local] Hint Resolve -> z_string_is z_number_is z_literal_is TimeframeSchema_is
  IndicatorTypeSchema_is PaneTypeSchema_is z_record_number_Return : accepts.

(** From a successful run of a field parser to the shape of the field. *)
Ltac field_shape :=
  match goal with
  | |- optionally _ _ =>
      first [ eapply (z_optional_Return _ _ _ z_number_is)
            | eapply (z_optional_Return _ _ _ z_string_is)
            | eapply (z_optional_Return _ _ _ PaneTypeSchema_is)
            | eapply (z_optional_Return _ _ _ z_record_number_Return) ];
      eauto
  | |- _ => eauto with accepts
  end.

(** From the shape of a field to a successful run of its parser, rewritten in
    the goal. *)
Ltac field_parse :=
  repeat match goal with
  | H : _ /\ _ |- _ => destruct H
  | H : is_string _ |- _ => apply z_string_is in H as [? H]; rewrite H
  | H : is_finite_number _ |- _ => apply z_number_is in H as [? H]; rewrite H
  | H : is_number_record _ |- _ =>
      apply z_record_number_Return in H as [? H]; rewrite H
  | H : is_one_of timeframes _ |- _ =>
      apply TimeframeSchema_is in H as [? H]; rewrite H
  | H : is_one_of indicatorTypes _ |- _ =>
      apply IndicatorTypeSchema_is in H as [? H]; rewrite H
  | H : is_one_of paneTypes _ |- _ =>
      apply PaneTypeSchema_is in H as [? H]; rewrite H
  | H : optionally is_finite_number _ |- _ =>
      apply (z_optional_Return _ _ _ z_number_is) in H as [? H]; rewrite H
  | H : optionally is_string _ |- _ =>
      apply (z_optional_Return _ _ _ z_string_is) in H as [? H]; rewrite H
  | H : optionally (is_one_of paneTypes) _ |- _ =>
      apply (z_optional_Return _ _ _ PaneTypeSchema_is) in H as [? H];
      rewrite H
  | H : optionally is_number_record _ |- _ =>
      apply (z_optional_Return _ _ _ z_record_number_Return) in H as [? H];
      rewrite H
  | H : get "type" _ = Some (JString ?lit) |- _ =>
      apply (z_literal_is lit) in H as [? H]; rewrite H
  end.

(** A flat object body accepts exactly its shape. *)
Ltac flat_shape :=
  intros o; split;
  [ intros [a Ha]; repeat (apply bind_Return in Ha as (? & ? & Ha));
    repeat split; field_shape
  | intros H; field_parse; cbn; eauto ].

Lemma point_accepts o :
  (exists a,
     (time ← z_number (get "time" o);
      price ← z_optional z_number (get "price" o);
      pane ← z_optional PaneTypeSchema (get "pane" o);
      label ← z_optional z_string (get "label" o);
      Return (mkHighlightPoint time price pane label)) = Return a)
  <-> point_shape o.
Proof. revert o. unfold point_shape. flat_shape. Qed.

Ltac tagged_shape := intros v; apply z_object_Return; flat_shape.

Lemma SetSymbol_accepts :
  accepts_tagged SetSymbolActionSchema "SET_SYMBOL"
    (fun o => is_string (get "symbol" o)).
Proof. tagged_shape. Qed.

Lemma SetTimeframe_accepts :
  accepts_tagged SetTimeframeActionSchema "SET_TIMEFRAME"
    (fun o => is_one_of timeframes (get "timeframe" o)).
Proof. tagged_shape. Qed.

Lemma LoadCandles_accepts :
  accepts_tagged LoadCandlesActionSchema "LOAD_CANDLES"
    (fun o => is_string (get "symbol" o) /\ is_string (get "timeframe" o)
              /\ optionally is_finite_number (get "from" o)
              /\ optionally is_finite_number (get "to" o)).
Proof. tagged_shape. Qed.

Lemma AddIndicator_accepts :
  accepts_tagged AddIndicatorActionSchema "ADD_INDICATOR"
    (fun o => is_one_of indicatorTypes (get "indicator" o)
              /\ optionally is_number_record (get "params" o)).
Proof. tagged_shape. Qed.

Lemma UpdateIndicatorParams_accepts :
  accepts_tagged UpdateIndicatorParamsActionSchema "UPDATE_INDICATOR_PARAMS"
    (fun o => is_one_of indicatorTypes (get "indicator" o)
              /\ is_number_record (get "params" o)).
Proof. tagged_shape. Qed.

Lemma ClearHighlights_accepts :
  accepts_tagged ClearHighlightsActionSchema "CLEAR_HIGHLIGHTS" (fun _ => True).
Proof. tagged_shape. Qed.

Lemma ClearIndicators_accepts :
  accepts_tagged ClearIndicatorsActionSchema "CLEAR_INDICATORS" (fun _ => True).
Proof. tagged_shape. Qed.

Lemma HighlightPointSchema_is v :
  (exists a, HighlightPointSchema v = Return a) <-> is_object point_shape v.
Proof. apply z_object_Return, point_accepts. Qed.

Lemma HighlightPoints_accepts :
  accepts_tagged HighlightPointsActionSchema "HIGHLIGHT_POINTS"
    (fun o => is_array (is_object point_shape) (get "points" o)).
Proof.
  intros v. apply z_object_Return. intros o. split.
  - intros [a Ha]. repeat (apply bind_Return in Ha as (? & ? & Ha)).
    split; [field_shape|].
    eapply (z_array_Return _ _ _ HighlightPointSchema_is). eauto.
  - intros [Ht Hp]. field_parse.
    apply (z_array_Return _ _ _ HighlightPointSchema_is) in Hp as [? Hp].
    rewrite Hp. cbn. eauto.
Qed.

(** The same for a schema whose single field is a nested object. *)
Lemma nested_accepts {A} (tag key : string)
    (body : list (string * json) -> outcome A)
    (P : list (string * json) -> Prop) (wrap : A -> ChartAction) :
  (forall r, (exists a, body r = Return a) <-> P r) ->
  accepts_tagged
    (z_object (fun o =>
       _ ← z_literal tag (get "type" o);
       x ← z_object body (get key o);
       Return (wrap x)))
    tag (fun o => is_object P (get key o)).
Proof.
  intros Hbody v. apply z_object_Return. intros o. split.
  - intros [a Ha]. repeat (apply bind_Return in Ha as (? & ? & Ha)).
    split; [field_shape|]. eapply (z_object_Return _ _ _ Hbody). eauto.
  - intros [Ht Hp]. field_parse.
    apply (z_object_Return _ _ _ Hbody) in Hp as [? Hp].
    rewrite Hp. cbn. eauto.
Qed.

Lemma HighlightRegion_accepts :
  accepts_tagged HighlightRegionActionSchema "HIGHLIGHT_REGION"
    (fun o => is_object region_shape (get "region" o)).
Proof. apply nested_accepts. unfold region_shape. flat_shape. Qed.

Lemma AddAnnotation_accepts :
  accepts_tagged AddAnnotationActionSchema "ADD_ANNOTATION"
    (fun o => is_object annotation_shape (get "annotation" o)).
Proof. apply nested_accepts. unfold annotation_shape. flat_shape. Qed.

Lemma FocusRange_accepts :
  accepts_tagged FocusRangeActionSchema "FOCUS_RANGE"
    (fun o => is_object range_shape (get "range" o)).
Proof. apply nested_accepts. unfold range_shape. flat_shape. Qed.

Lemma union_lookup (options : list (string * schema ChartAction))
    (shapes : list (string * (list (string * json) -> Prop))) tag :
  Forall2 (fun opt sh => opt.1 = sh.1 /\ accepts_tagged opt.2 sh.1 sh.2)
    options shapes ->
  NoDup shapes.*1 ->
  match enum_lookup tag options with
  | Some sch =>
      exists P, (tag, P) ∈ shapes /\ accepts_tagged sch tag P
                /\ forall P', (tag, P') ∈ shapes -> P' = P
  | None => tag ∉ shapes.*1
  end.
Proof.
  induction 1 as [|[t sch] [t' P] options shapes [Ht Hacc] _ IH];
    intros Hnd; cbn in *.
  - by intros ?%elem_of_nil.
  - subst t'. apply NoDup_cons in Hnd as [Hfresh Hnd].
    destruct (String.eqb_spec t tag) as [->|Hne].
    + exists P. split; [by left|]. split; [done|].
      intros P' [[= ->]|Hin]%elem_of_cons; [done|].
      destruct Hfresh. apply list_elem_of_fmap. by exists (tag, P').
    + specialize (IH Hnd). destruct (enum_lookup tag options) as [sch'|].
      * destruct IH as (P' & Hin & Hacc' & Huniq). exists P'.
        split; [by right|]. split; [done|].
        intros P'' [[= -> ->]|Hin']%elem_of_cons; [done|]. auto.
      * intros [->|Hin]%elem_of_cons; done.
Qed.

Lemma ChartActionSchema_options :
  Forall2 (fun opt sh => opt.1 = sh.1 /\ accepts_tagged opt.2 sh.1 sh.2)
    [ ("SET_SYMBOL", SetSymbolActionSchema);
      ("SET_TIMEFRAME", SetTimeframeActionSchema);
      ("LOAD_CANDLES", LoadCandlesActionSchema);
      ("ADD_INDICATOR", AddIndicatorActionSchema);
      ("UPDATE_INDICATOR_PARAMS", UpdateIndicatorParamsActionSchema);
      ("HIGHLIGHT_POINTS", HighlightPointsActionSchema);
      ("HIGHLIGHT_REGION", HighlightRegionActionSchema);
      ("ADD_ANNOTATION", AddAnnotationActionSchema);
      ("FOCUS_RANGE", FocusRangeActionSchema);
      ("CLEAR_HIGHLIGHTS", ClearHighlightsActionSchema);
      ("CLEAR_INDICATORS", ClearIndicatorsActionSchema) ]
    wire_shapes.
Proof.
  unfold wire_shapes.
  repeat (constructor; [split; [reflexivity|]|]); [..|constructor];
    cbn [fst snd].
  - apply SetSymbol_accepts.
  - apply SetTimeframe_accepts.
  - apply LoadCandles_accepts.
  - apply AddIndicator_accepts.
  - apply UpdateIndicatorParams_accepts.
  - apply HighlightPoints_accepts.
  - apply HighlightRegion_accepts.
  - apply AddAnnotation_accepts.
  - apply FocusRange_accepts.
  - apply ClearHighlights_accepts.
  - apply ClearIndicators_accepts.
Qed.

Lemma wire_shapes_tags :
  wire_shapes.*1
  = [ "SET_SYMBOL"; "SET_TIMEFRAME"; "LOAD_CANDLES"; "ADD_INDICATOR";
      "UPDATE_INDICATOR_PARAMS"; "HIGHLIGHT_POINTS"; "HIGHLIGHT_REGION";
      "ADD_ANNOTATION"; "FOCUS_RANGE"; "CLEAR_HIGHLIGHTS"; "CLEAR_INDICATORS" ].
Proof. reflexivity. Qed.

Lemma wire_shapes_NoDup : NoDup wire_shapes.*1.
Proof.
  rewrite wire_shapes_tags. apply (bool_decide_unpack _). by vm_compute.
Qed.


Lemma parse_accepts v :
  (exists a, parse v = Return a)
  <-> exists o tag shape,
        v = JObject o /\ get "type" o = Some (JString tag)
        /\ (tag, shape) ∈ wire_shapes /\ shape o.
Proof.
  unfold parse, ChartActionSchema, z_discriminatedUnion. split.
  - intros [a Ha]. destruct v as [| | | | |o]; try done.
    destruct (get "type" o) as [[| | |tag| |]|] eqn:Ht; try done.
    pose proof (union_lookup _ _ tag ChartActionSchema_options
                  wire_shapes_NoDup) as Hl.
    destruct (enum_lookup tag _) as [sch|]; [|done].
    destruct Hl as (P & Hin & Hacc & _).
    destruct (proj1 (Hacc _) (ex_intro _ a Ha)) as (o' & [= <-] & _ & HP).
    by exists o, tag, P.
  - intros (o & tag & shape & -> & Ht & Hin & Hs). rewrite Ht.
    pose proof (union_lookup _ _ tag ChartActionSchema_options
                  wire_shapes_NoDup) as Hl.
    destruct (enum_lookup tag _) as [sch|].
    + destruct Hl as (P & _ & Hacc & Huniq).
      rewrite (Huniq _ Hin) in Hs. apply Hacc. by exists o.
    + destruct Hl. apply list_elem_of_fmap. by exists (tag, shape).
Qed.

Lemma wire_shapes_unique tag P P' :
  (tag, P) ∈ wire_shapes -> (tag, P') ∈ wire_shapes -> P = P'.
Proof.
  intros H H'.
  pose proof (union_lookup _ _ tag ChartActionSchema_options
                wire_shapes_NoDup) as Hl.
  destruct (enum_lookup tag _) as [sch|].
  - destruct Hl as (Q & _ & _ & Huniq). by rewrite (Huniq _ H), (Huniq _ H').
  - destruct Hl. apply list_elem_of_fmap. by exists (tag, P).
Qed.

Lemma not_Return_Throw {A} (m : outcome A) :
  ~ (exists a, m = Return a) -> exists e, m = Throw e.
Proof. destruct m as [a|e]; [intros []|]; eauto. Qed.







(** ** The execution engine *)

Section EngineFacts.
Variable fetchCandles : nat -> string -> string -> outcome (list Candle).
Variable captured : Captured.

(** What a reload leaves behind: the fetched candles on success, the
    previous ones on failure; [isLoading] is false either way. *)
Lemma loadCandles_result sym tf eng :
  loadCandles fetchCandles captured sym tf eng
  = Return (mkEngine
      (mkState (symbol (chart eng)) (timeframe (chart eng))
         (match fetchCandles (requests eng)
                  (js_or sym (cap_symbol captured))
                  (js_or tf (Timeframe_str (cap_timeframe captured))) with
          | Return data => data
          | Throw _ => candles (chart eng)
          end)
         (indicators (chart eng)) (visibleFrom (chart eng))
         (visibleTo (chart eng)) (highlights (chart eng))
         (annotations (chart eng)) false)
      (S (requests eng))).
Proof. unfold loadCandles. by destruct (fetchCandles _ _ _). Qed.

Lemma executeAction_Return action eng :
  exists eng', executeAction fetchCandles captured action eng = Return eng'.
Proof.
  destruct action; cbn [executeAction]; rewrite ?loadCandles_result; eauto.
Qed.

Lemma executeActions_Return actions eng :
  exists eng', executeActions fetchCandles captured actions eng = Return eng'.
Proof.
  revert eng; induction actions as [|a actions IH]; intros eng; cbn; [eauto|].
  destruct (executeAction_Return a eng) as [eng' ->]. cbn. apply IH.
Qed.

Lemma executeActions_cons action rest eng eng' :
  executeAction fetchCandles captured action eng = Return eng' ->
  executeActions fetchCandles captured (action :: rest) eng
  = executeActions fetchCandles captured rest eng'.
Proof. intros H. cbn. by rewrite H. Qed.

Lemma validate_loop_valid raw actions :
  validate_loop raw actions = Return (actions ++ validSubsequence raw).
Proof.
  revert actions; induction raw as [|v raw IH]; intros actions.
  - cbn. by rewrite app_nil_r.
  - assert (Hcons : validSubsequence (v :: raw)
                    = match parse v with
                      | Return a => a :: validSubsequence raw
                      | Throw _ => validSubsequence raw
                      end).
    { unfold validSubsequence. cbn [omap list_omap]. by destruct (parse v). }
    rewrite Hcons. cbn [validate_loop]. destruct (parse v) as [a|e]; cbn.
    + rewrite IH. by rewrite <- app_assoc.
    + apply IH.
Qed.

Lemma validSubsequence_parsed raw :
  Forall2 (fun v a => parse v = Return a)
    (List.filter (fun v => negb (is_rejected v)) raw) (validSubsequence raw).
Proof.
  unfold validSubsequence, is_rejected.
  induction raw as [|v raw IH]; [constructor|].
  cbn [omap list_omap List.filter].
  destruct (parse v) as [a|e] eqn:E; cbn [negb]; [by constructor|done].
Qed.

Lemma validSubsequence_length raw :
  length (validSubsequence raw) + length (List.filter is_rejected raw)
  = length raw.
Proof.
  unfold validSubsequence, is_rejected.
  induction raw as [|v raw IH]; [done|].
  cbn [omap list_omap List.filter length].
  destruct (parse v); cbn [length]; lia.
Qed.

Lemma executeActions_applied actions eng eng' :
  executeActions fetchCandles captured actions eng = Return eng'
  <-> applied_in_order fetchCandles captured eng actions eng'.
Proof.
  revert eng. induction actions as [|a actions IH]; intros eng.
  - cbn. split.
    + intros [= ->]. constructor.
    + intros H. by inversion H.
  - cbn [executeActions]. split.
    + intros (eng1 & H1 & Hrest)%bind_Return.
      econstructor; [exact H1|]. by apply IH.
    + intros H. inversion H as [|? ? eng1 ? ? H1 Hrest]; subst.
      rewrite H1. cbn. by apply IH.
Qed.

(** C7. On a batch of raw commands, validating and then applying skips
    each rejected command and goes on with the next.  The pipeline raises no
    error: it ends in a state, and that state is the one produced by
    applying, one after the other in their original order, the commands that
    validation accepts, and no other state is produced so.  The accepted
    commands are the parse results of the raw commands that are not
    rejected, in the same order, as many as the raw commands less the
    rejected ones. *)
Theorem validateThenApply_spec (raw : list json) (eng : Engine) :
  let valid := validSubsequence raw in
  (exists eng',
     validateThenApply fetchCandles captured raw eng = Return eng'
     /\ applied_in_order fetchCandles captured eng valid eng')
  /\ (forall eng',
        applied_in_order fetchCandles captured eng valid eng' ->
        validateThenApply fetchCandles captured raw eng = Return eng')
  /\ validateThenApply fetchCandles captured raw eng
     = executeActions fetchCandles captured valid eng
  /\ Forall2 (fun v a => parse v = Return a)
       (List.filter (fun v => negb (is_rejected v)) raw) valid
  /\ length valid = length raw - length (List.filter is_rejected raw).
Proof.
  intros valid.
  assert (Heq : validateThenApply fetchCandles captured raw eng
                = executeActions fetchCandles captured valid eng).
  { unfold validateThenApply, validateActions.
    rewrite validate_loop_valid. cbn. fold valid. by destruct valid. }
  split; [|split; [|split; [done|split]]].
  - destruct (executeActions_Return valid eng) as [eng' Hrun].
    exists eng'. split; [by rewrite Heq|]. by apply executeActions_applied.
  - intros eng' Happlied. rewrite Heq. by apply executeActions_applied.
  - apply validSubsequence_parsed.
  - pose proof (validSubsequence_length raw). unfold valid. lia.
Qed.
End EngineFacts.

Lemma validateThenApply_spec_witness :
  validateThenApply (fun _ _ _ => Throw FetchError)
    (mkCaptured "BTCUSDT" TF_1d)
    [ JObject [("type", JString "ADD_INDICATOR");
               ("indicator", JString "EMA")];
      JObject [("type", JString "ZOOM")];
      JObject [("type", JString "HIGHLIGHT_POINTS");
               ("points",
                JArray [JObject [("time", JNumber (Finite 60))]])];
      JObject [("type", JString "FOCUS_RANGE");
               ("range", JObject [("fromTime", JNumber NaN);
                                  ("toTime", JNumber (Finite 5))])] ]
    (mkEngine initialState 0)
  = Return
      (mkEngine
         (mkState "BTCUSDT" TF_1d []
            [mkIndicatorConfig EMA_ (defaultParams EMA_) true] None None
            [mkHighlightPoint 60 None None None] [] false)
         0).
Proof.
  apply (proj1 (proj2 (validateThenApply_spec _ _ _ _))).
  eapply applied_next; [reflexivity|].
  eapply applied_next; [reflexivity|].
  apply applied_none.
Defined.

Section Commands.
Variable fetchCandles : nat -> string -> string -> outcome (list Candle).
Variable captured : Captured.

(** C10. A validated command other than [SET_SYMBOL], [SET_TIMEFRAME] and
    [LOAD_CANDLES] leaves the symbol, the timeframe, the candles and
    [isLoading] of the state as they were (and sends no candle request). *)
Theorem executeAction_frame (action : ChartAction) (eng : Engine) :
  is_reload action = false ->
  exists eng',
    executeAction fetchCandles captured action eng = Return eng'
    /\ symbol (chart eng') = symbol (chart eng)
    /\ timeframe (chart eng') = timeframe (chart eng)
    /\ candles (chart eng') = candles (chart eng)
    /\ isLoading (chart eng') = isLoading (chart eng)
    /\ requests eng' = requests eng.
Proof.
  intros Hr. destruct action; try discriminate Hr;
    (eexists; split; [reflexivity|done]).
Qed.

Lemma upsert_names (cfg : IndicatorConfig) (inds : list IndicatorConfig) :
  name <$> ((fun i => if name_is (name cfg) i then cfg else i) <$> inds)
  = name <$> inds.
Proof.
  rewrite <- list_fmap_compose. apply list_fmap_ext. intros _ i _. cbn.
  unfold name_is. by case_bool_decide.
Qed.

Lemma existsb_name_is n (inds : list IndicatorConfig) :
  existsb (name_is n) inds = true <-> n ∈ name <$> inds.
Proof.
  rewrite existsb_exists, list_elem_of_fmap. unfold name_is.
  split; intros (i & H1 & H2).
  - apply bool_decide_eq_true in H2. exists i. split; [done|].
    by apply list_elem_of_In.
  - exists i. split; [by apply list_elem_of_In|].
    by apply bool_decide_eq_true.
Qed.

(** The reducer keeps the names of the active indicators distinct. *)
Lemma chartReducer_names_NoDup state action :
  NoDup (indicator_names state) ->
  NoDup (indicator_names (chartReducer state action)).
Proof.
  unfold indicator_names. intros Hnd. destruct action; cbn; try done.
  - destruct (existsb _ _) eqn:E.
    + by rewrite upsert_names.
    + rewrite fmap_app. apply NoDup_app. split; [done|].
      split; [|apply NoDup_singleton].
      intros n Hn ->%list_elem_of_singleton.
      apply existsb_name_is in Hn. congruence.
  - rewrite <- list_fmap_compose.
    erewrite list_fmap_ext; [exact Hnd|].
    intros _ i _. cbn. by destruct (name_is _ _).
  - induction (indicators state) as [|i inds IH]; cbn; [constructor|].
    apply NoDup_cons in Hnd as [Hi Hnd]. specialize (IH Hnd).
    destruct (negb _); [|done]. cbn. apply NoDup_cons. split; [|done].
    intros Hin. apply Hi. apply list_elem_of_fmap in Hin as (j & -> & Hj).
    apply list_elem_of_fmap. exists j. split; [done|].
    apply list_elem_of_In. apply list_elem_of_In in Hj.
    by apply filter_In in Hj as [? _].
  - constructor.
Qed.

Lemma executeAction_names_NoDup action eng eng' :
  executeAction fetchCandles captured action eng = Return eng' ->
  NoDup (indicator_names (chart eng)) ->
  NoDup (indicator_names (chart eng')).
Proof.
  destruct action; cbn [executeAction]; rewrite ?loadCandles_result;
    intros [= <-] Hnd; cbn [chart dispatch];
    try (by apply chartReducer_names_NoDup); done.
Qed.

Lemma executeActions_names_NoDup actions eng eng' :
  executeActions fetchCandles captured actions eng = Return eng' ->
  NoDup (indicator_names (chart eng)) ->
  NoDup (indicator_names (chart eng')).
Proof.
  revert eng; induction actions as [|a actions IH]; intros eng; cbn.
  - by intros [= <-].
  - intros H Hnd. apply bind_Return in H as (eng1 & H1 & H).
    eapply IH; [done|]. by eapply executeAction_names_NoDup.
Qed.
End Commands.

Lemma filter_name_absent (n : IndicatorType) (l : list IndicatorConfig) :
  n ∉ name <$> l -> filter (fun i => name i = n) l = [].
Proof.
  induction l as [|i l IH]; [done|]. rewrite fmap_cons, not_elem_of_cons.
  intros [Hne Hl]. rewrite filter_cons_False by congruence. auto.
Qed.

Lemma filter_upsert (cfg : IndicatorConfig) (l : list IndicatorConfig) :
  NoDup (name <$> l) -> name cfg ∈ name <$> l ->
  filter (fun i => name i = name cfg)
    ((fun i => if name_is (name cfg) i then cfg else i) <$> l) = [cfg].
Proof.
  induction l as [|i l IH]; [by intros _ ?%elem_of_nil|].
  rewrite !fmap_cons. intros [Hi Hnd]%NoDup_cons [Heq|Hin]%elem_of_cons.
  - unfold name_is at 1. rewrite bool_decide_eq_true_2 by done.
    rewrite filter_cons_True by done. f_equal.
    apply filter_name_absent. rewrite upsert_names. congruence.
  - assert (Hne : name i <> name cfg) by (intros E; apply Hi; congruence).
    unfold name_is at 1. rewrite bool_decide_eq_false_2 by done.
    rewrite filter_cons_False by done. auto.
Qed.

(** C8. [ADD_INDICATOR] upserts the configuration keyed by the indicator
    name: an existing configuration of that name is replaced in place,
    otherwise the new one is appended; its params are the given ones, or the
    defaults of its type when none are given (MACD: fast 12, slow 26,
    signal 9; RSI: period 14; EMA: period 20).  So a list with at most one
    configuration per name stays so, and then holds exactly the new
    configuration under that name; every state reached from the initial state
    has at most one configuration per name.  [ADD_INDICATOR] for MACD applied
    twice, the second time with explicit params, leaves exactly one MACD
    configuration, with the second params. *)
Theorem ADD_INDICATOR_upsert
    (fetchCandles : nat -> string -> string -> outcome (list Candle))
    (captured : Captured) :
  (forall indicator ps eng,
     let cfg :=
       mkIndicatorConfig indicator (default (defaultParams indicator) ps)
         true in
     exists eng',
       executeAction fetchCandles captured (ADD_INDICATOR indicator ps) eng
       = Return eng'
       /\ (indicator ∈ indicator_names (chart eng) ->
             indicators (chart eng')
             = (fun i => if bool_decide (name i = indicator) then cfg else i)
                 <$> indicators (chart eng))
       /\ (indicator ∉ indicator_names (chart eng) ->
             indicators (chart eng') = indicators (chart eng) ++ [cfg])
       /\ (NoDup (indicator_names (chart eng)) ->
             NoDup (indicator_names (chart eng'))
             /\ filter (fun i => name i = indicator) (indicators (chart eng'))
                = [cfg]))
  /\ (defaultParams MACD_
        = {[ "fast" := 12%Q; "slow" := 26%Q; "signal" := 9%Q ]}
      /\ defaultParams RSI_ = {[ "period" := 14%Q ]}
      /\ defaultParams EMA_ = {[ "period" := 20%Q ]})
  /\ (forall actions n eng',
        executeActions fetchCandles captured actions (mkEngine initialState n)
        = Return eng' ->
        NoDup (indicator_names (chart eng')))
  /\ (forall ps1 ps2 eng,
        NoDup (indicator_names (chart eng)) ->
        exists eng',
          executeActions fetchCandles captured
            [ADD_INDICATOR MACD_ ps1; ADD_INDICATOR MACD_ (Some ps2)] eng
          = Return eng'
          /\ filter (fun i => name i = MACD_) (indicators (chart eng'))
             = [mkIndicatorConfig MACD_ ps2 true]).
Proof.
  assert (Hgen : forall indicator ps eng,
    let cfg :=
      mkIndicatorConfig indicator (default (defaultParams indicator) ps) true in
    exists eng',
      executeAction fetchCandles captured (ADD_INDICATOR indicator ps) eng
      = Return eng'
      /\ (indicator ∈ indicator_names (chart eng) ->
            indicators (chart eng')
            = (fun i => if bool_decide (name i = indicator) then cfg else i)
                <$> indicators (chart eng))
      /\ (indicator ∉ indicator_names (chart eng) ->
            indicators (chart eng') = indicators (chart eng) ++ [cfg])
      /\ (NoDup (indicator_names (chart eng)) ->
            NoDup (indicator_names (chart eng'))
            /\ filter (fun i => name i = indicator) (indicators (chart eng'))
               = [cfg])).
  { intros indicator ps eng cfg. eexists. split; [reflexivity|].
    cbn [chart dispatch chartReducer indicators]. fold cfg.
    change (name cfg) with indicator.
    pose proof (existsb_name_is indicator (indicators (chart eng))) as Hex.
    unfold indicator_names.
    destruct (existsb _ _) eqn:E.
    - assert (Hin : indicator ∈ name <$> indicators (chart eng))
        by by apply Hex.
      split; [done|]. split; [done|]. intros Hnd. split.
      + change (NoDup (name <$> ((fun i => if name_is (name cfg) i
                                            then cfg else i)
                                   <$> indicators (chart eng)))).
        by rewrite upsert_names.
      + by apply (filter_upsert cfg).
    - assert (Hout : indicator ∉ name <$> indicators (chart eng)).
      { intros Hin. apply Hex in Hin. congruence. }
      split; [done|]. split; [done|]. intros Hnd. split.
      + change (NoDup (name <$> (indicators (chart eng) ++ [cfg]))).
        rewrite fmap_app. apply NoDup_app. split; [done|].
        split; [|apply NoDup_singleton].
        by intros n Hn ->%list_elem_of_singleton.
      + change (filter (fun i => name i = name cfg)
                  (indicators (chart eng) ++ [cfg]) = [cfg]).
        rewrite filter_app, filter_name_absent by done.
        by rewrite filter_cons_True, filter_nil by done. }
  split; [exact Hgen|]. split; [done|]. split.
  - intros actions n eng' Hrun.
    eapply executeActions_names_NoDup; [exact Hrun|]. constructor.
  - intros ps1 ps2 eng Hnd.
    destruct (Hgen MACD_ ps1 eng) as (eng1 & H1 & _ & _ & Hnd1).
    destruct (Hnd1 Hnd) as [Hnd1' _].
    destruct (Hgen MACD_ (Some ps2) eng1) as (eng2 & H2 & _ & _ & Hnd2).
    destruct (Hnd2 Hnd1') as [_ Hone].
    exists eng2. split; [|exact Hone].
    rewrite (executeActions_cons _ _ _ _ _ _ H1).
    rewrite (executeActions_cons _ _ _ _ _ _ H2). done.
Qed.

Lemma ADD_INDICATOR_upsert_witness :
  exists eng',
    executeActions (fun _ _ _ => Throw FetchError) (mkCaptured "BTCUSDT" TF_1d)
      [ADD_INDICATOR MACD_ None;
       ADD_INDICATOR MACD_ (Some {[ "fast" := 5%Q; "slow" := 10%Q ]})]
      (mkEngine initialState 0)
    = Return eng'
    /\ filter (fun i => name i = MACD_) (indicators (chart eng'))
       = [mkIndicatorConfig MACD_ {[ "fast" := 5%Q; "slow" := 10%Q ]} true].
Proof.
  apply (ADD_INDICATOR_upsert (fun _ _ _ => Throw FetchError)
           (mkCaptured "BTCUSDT" TF_1d)).
  constructor.
Defined.

Lemma executeAction_frame_witness :
  exists eng',
    executeAction (fun _ _ _ => Throw FetchError) (mkCaptured "BTCUSDT" TF_1d)
      (FOCUS_RANGE (mkRange 100 200)) (mkEngine initialState 0) = Return eng'
    /\ symbol (chart eng') = symbol initialState
    /\ timeframe (chart eng') = timeframe initialState
    /\ candles (chart eng') = candles initialState
    /\ isLoading (chart eng') = isLoading initialState
    /\ requests eng' = 0.
Proof.
  apply (executeAction_frame (fun _ _ _ => Throw FetchError)
           (mkCaptured "BTCUSDT" TF_1d) (FOCUS_RANGE (mkRange 100 200))
           (mkEngine initialState 0)).
  reflexivity.
Defined.

(** C9, as the code has it.  When the candle request of a [SET_SYMBOL],
    [SET_TIMEFRAME] or [LOAD_CANDLES] command fails, the command still
    completes: the candles are the previous ones, [isLoading] is back to
    false, the symbol or the timeframe is the one the command set, the rest
    of the state is unchanged, and the remaining commands of the batch run
    from that state; the batch ends in a state, never in a thrown error. *)
Theorem reload_failure_keeps_candles
    (fetchCandles : nat -> string -> string -> outcome (list Candle))
    (captured : Captured) (action : ChartAction) (rest : list ChartAction)
    (eng : Engine) :
  is_reload action = true ->
  (forall sym tf, exists e, fetchCandles (requests eng) sym tf = Throw e) ->
  exists eng',
    executeAction fetchCandles captured action eng = Return eng'
    /\ candles (chart eng') = candles (chart eng)
    /\ isLoading (chart eng') = false
    /\ symbol (chart eng')
       = match action with SET_SYMBOL s => s | _ => symbol (chart eng) end
    /\ timeframe (chart eng')
       = match action with
         | SET_TIMEFRAME t => t
         | _ => timeframe (chart eng)
         end
    /\ indicators (chart eng') = indicators (chart eng)
    /\ highlights (chart eng') = highlights (chart eng)
    /\ annotations (chart eng') = annotations (chart eng)
    /\ visibleFrom (chart eng') = visibleFrom (chart eng)
    /\ visibleTo (chart eng') = visibleTo (chart eng)
    /\ executeActions fetchCandles captured (action :: rest) eng
       = executeActions fetchCandles captured rest eng'
    /\ exists final,
         executeActions fetchCandles captured (action :: rest) eng
         = Return final.
Proof.
  intros Hr Hfail.
  destruct (executeAction_Return fetchCandles captured action eng)
    as [eng' Hrun].
  exists eng'. split; [done|].
  assert (Hstate :
    candles (chart eng') = candles (chart eng)
    /\ isLoading (chart eng') = false
    /\ symbol (chart eng')
       = match action with SET_SYMBOL s => s | _ => symbol (chart eng) end
    /\ timeframe (chart eng')
       = match action with
         | SET_TIMEFRAME t => t
         | _ => timeframe (chart eng)
         end
    /\ indicators (chart eng') = indicators (chart eng)
    /\ highlights (chart eng') = highlights (chart eng)
    /\ annotations (chart eng') = annotations (chart eng)
    /\ visibleFrom (chart eng') = visibleFrom (chart eng)
    /\ visibleTo (chart eng') = visibleTo (chart eng)).
  { destruct action; try discriminate Hr; cbn [executeAction] in Hrun;
      rewrite loadCandles_result in Hrun; cbn [dispatch chart requests] in Hrun;
      match type of Hrun with
      | context [fetchCandles ?n ?s ?t] =>
          destruct (Hfail s t) as [e He]; rewrite He in Hrun
      end;
      simplify_eq; done. }
  destruct Hstate as (? & ? & ? & ? & ? & ? & ? & ? & ?).
  repeat (split; [done|]).
  split; [by apply executeActions_cons|apply executeActions_Return].
Qed.

Lemma reload_failure_keeps_candles_witness :
  exists eng',
    executeAction (fun _ _ _ => Throw FetchError) (mkCaptured "BTCUSDT" TF_1d)
      (SET_SYMBOL "ETHUSDT") (mkEngine initialState 0) = Return eng'
    /\ candles (chart eng') = candles initialState
    /\ isLoading (chart eng') = false
    /\ symbol (chart eng') = "ETHUSDT".
Proof.
  destruct (reload_failure_keeps_candles (fun _ _ _ => Throw FetchError)
              (mkCaptured "BTCUSDT" TF_1d) (SET_SYMBOL "ETHUSDT") []
              (mkEngine initialState 0) eq_refl)
    as (eng' & Hrun & Hc & Hl & Hs & _).
  { intros sym tf. by exists FetchError. }
  exists eng'. repeat split; assumption.
Defined.

(** C9, the error indicator.  After a [LOAD_CANDLES] whose request fails, the
    state the renderer reads is the state it read before the command, and it
    is also the state that a successful request answering the same candles
    leaves: nothing in the state marks the failure. *)
Lemma reload_failure_not_surfaced :
  let eng := mkEngine initialState 0 in
  let captured := mkCaptured "BTCUSDT" TF_1d in
  let action := LOAD_CANDLES "BTCUSDT" "1d" None None in
  exists after,
    executeAction (fun _ _ _ => Throw FetchError) captured action eng
    = Return after
    /\ chart after = chart eng
    /\ executeAction (fun _ _ _ => Return (candles initialState)) captured
         action eng
       = Return after.
Proof. cbv zeta. eexists. split; [reflexivity|]. split; reflexivity. Qed.


(** ** More on the indicators *)

Lemma calculateEMA_loop_prefix data more more' p m rest i ema :
  i + length rest <= length data ->
  take (length rest)
    (calculateEMA_loop (data ++ more) p m i (rest ++ more') ema)
  = calculateEMA_loop data p m i rest ema.
Proof.
  revert i ema; induction rest as [|d rest IH]; intros i ema Hlen; [done|].
  cbn [app calculateEMA_loop length] in *.
  destruct (Z.ltb_spec (Z.of_nat i) (p - 1)).
  - cbn [take]. f_equal. apply IH. lia.
  - destruct (Z.eqb_spec (Z.of_nat i) (p - 1)).
    + rewrite take_app_le by lia. cbn [take]. f_equal. apply IH. lia.
    + cbn [take]. f_equal. apply IH. lia.
Qed.

Lemma calculateEMA_take (data more : list Q) (p : Z) :
  take (length data) (calculateEMA (data ++ more) p) = calculateEMA data p.
Proof. unfold calculateEMA. by apply calculateEMA_loop_prefix. Qed.

Lemma calculateEMA_prefix_lookup data more p i :
  i < length data ->
  calculateEMA (data ++ more) p !! i = calculateEMA data p !! i.
Proof.
  intros Hi. rewrite <- (calculateEMA_take data more p).
  by rewrite lookup_take_lt.
Qed.

Lemma macdLine_prefix data more fast slow signal :
  take (length data) (macdLine (calculateMACD (data ++ more) fast slow signal))
  = macdLine (calculateMACD data fast slow signal).
Proof.
  destruct (calculateMACD_length data fast slow signal) as (Hl & _ & _).
  destruct (calculateMACD_length (data ++ more) fast slow signal)
    as (Hl' & _ & _).
  rewrite length_app in Hl'.
  apply list_eq. intros i. destruct (decide (i < length data)) as [Hi|Hi].
  - rewrite lookup_take_lt by done.
    rewrite !macdLine_lookup by (rewrite ?length_app; lia).
    by rewrite !calculateEMA_prefix_lookup.
  - rewrite lookup_take_ge by lia. symmetry. apply lookup_ge_None. lia.
Qed.

Lemma calculateMACD_take (data more : list Q) (fast slow signal : Z) :
  let r := calculateMACD data fast slow signal in
  let r' := calculateMACD (data ++ more) fast slow signal in
  take (length data) (macdLine r') = macdLine r
  /\ take (length data) (signalLine r') = signalLine r
  /\ take (length data) (histogram r') = histogram r.
Proof.
  intros r r'.
  destruct (calculateMACD_length data fast slow signal) as (Hl & Hs & Hh).
  destruct (calculateMACD_length (data ++ more) fast slow signal)
    as (Hl' & Hs' & Hh').
  fold r in Hl, Hs, Hh. fold r' in Hl', Hs', Hh'. rewrite length_app in *.
  pose proof (macdLine_prefix data more fast slow signal) as Hmacd.
  fold r r' in Hmacd.
  pose proof (macdLine_defined_from data fast slow signal) as Hk.
  pose proof (macdLine_defined_from (data ++ more) fast slow signal) as Hk'.
  fold r in Hk. fold r' in Hk'.
  set (k := Nat.max (Z.to_nat (fast - 1)) (Z.to_nat (slow - 1))) in *.
  assert (Hsig : take (length data) (signalLine r') = signalLine r).
  { apply list_eq. intros i. destruct (decide (i < length data)) as [Hi|Hi].
    2: { rewrite lookup_take_ge by lia. symmetry. apply lookup_ge_None. lia. }
    rewrite lookup_take_lt by done. unfold r, r'.
    rewrite (signalLine_lookup _ _ _ _ k) by (rewrite ?length_app; done || lia).
    rewrite (signalLine_lookup _ _ _ _ k) by done.
    fold r r'. destruct (decide (i < k)) as [|Hge]; [done|]. do 2 f_equal.
    rewrite <- (take_drop (length data) (macdLine r')) at 1.
    unfold validValues at 1. rewrite omap_app.
    fold (validValues (take (length data) (macdLine r'))).
    rewrite Hmacd. apply calculateEMA_prefix_lookup.
    rewrite (validValues_length _ k) by done. lia. }
  split; [done|]. split; [done|].
  apply list_eq. intros i. destruct (decide (i < length data)) as [Hi|Hi].
  2: { rewrite lookup_take_ge by lia. symmetry. apply lookup_ge_None. lia. }
  rewrite lookup_take_lt by done. unfold r, r'.
  rewrite !histogram_lookup by (rewrite ?length_app; lia). fold r r'.
  by rewrite <- Hmacd, <- Hsig, !lookup_take_lt by done.
Qed.

(** The indicators do not look ahead: appending later prices leaves the
    values already computed for the earlier ones as they are, for the EMA and
    for the three series of the MACD. *)
Theorem indicators_no_lookahead (data more : list Q) (fast slow signal : Z) :
  take (length data) (calculateEMA (data ++ more) fast)
  = calculateEMA data fast
  /\ take (length data)
       (macdLine (calculateMACD (data ++ more) fast slow signal))
     = macdLine (calculateMACD data fast slow signal)
  /\ take (length data)
       (signalLine (calculateMACD (data ++ more) fast slow signal))
     = signalLine (calculateMACD data fast slow signal)
  /\ take (length data)
       (histogram (calculateMACD (data ++ more) fast slow signal))
     = histogram (calculateMACD data fast slow signal).
Proof.
  split; [apply calculateEMA_take|apply calculateMACD_take].
Qed.

Lemma price_changes_inv data i c :
  price_changes data !! i = Some c ->
  exists a b, data !! i = Some a /\ data !! S i = Some b /\ c = (b - a)%Q.
Proof.
  intros Hc. pose proof (lookup_lt_Some _ _ _ Hc) as Hi.
  rewrite price_changes_length in Hi.
  destruct (lookup_lt_is_Some_2 data i) as [a Ha]; [lia|].
  destruct (lookup_lt_is_Some_2 data (S i)) as [b Hb]; [lia|].
  exists a, b. rewrite (price_changes_lookup _ _ _ _ Ha Hb) in Hc.
  by simplify_eq.
Qed.

Lemma avgs_iter_inv_range (P : Q * Q -> Prop) p changes start acc k :
  P acc ->
  (forall a j c, P a -> changes !! j = Some c ->
                 P (wilder_step p a (Some c))) ->
  start + k <= length changes ->
  P (avgs_iter p changes start acc k).
Proof.
  intros Hacc Hstep. induction k as [|k IH]; intros Hk; simpl; [done|].
  destruct (lookup_lt_is_Some_2 changes (start + k)) as [c Hc]; [lia|].
  rewrite Hc. eapply Hstep; [|done]. apply IH. lia.
Qed.

(** Every number in the output is [rsi_value] of a pair of averages, and the
    averages keep every property that the seed has and that a smoothing round
    on a price change of the input preserves. *)
Lemma calculateRSI_values_range (P : Q * Q -> Prop) data p i v :
  (0 <= p)%Z ->
  P (rsi_seed p (price_changes data)) ->
  (forall a j c, P a -> price_changes data !! j = Some c ->
                 P (wilder_step p a (Some c))) ->
  calculateRSI data p !! i = Some (Some v) ->
  exists a, P a /\ v = rsi_value a.1 a.2.
Proof.
  intros Hp Hseed Hstep Hv.
  destruct (Z.ltb_spec (Z.of_nat (length data)) (p + 1)) as [Hs|Hl].
  - rewrite calculateRSI_short in Hv by done.
    by apply lookup_replicate in Hv as [? _].
  - rewrite calculateRSI_long in Hv by done.
    apply lookup_app_Some in Hv as [Hv|[Hge Hv]].
    { apply lookup_replicate in Hv as [? _]. done. }
    rewrite length_replicate in Hge, Hv.
    apply lookup_app_Some in Hv as [Hv|[Hge' Hv]].
    { apply list_lookup_singleton_Some in Hv as [_ Hv]. simplify_eq. eauto. }
    simpl in Hge', Hv.
    pose proof (lookup_lt_Some _ _ _ Hv) as Hlt.
    rewrite smooth_loop_length, length_seqZ in Hlt.
    rewrite smooth_loop_lookup in Hv by lia. simplify_eq.
    eexists. split; [|done]. apply avgs_iter_inv_range; [done..|].
    rewrite price_changes_length. lia.
Qed.

Lemma seed_step_rising cs a :
  (forall c, c ∈ cs -> (0 <= c)%Q) -> (a.2 == 0)%Q ->
  ((fold_left seed_step cs a).2 == 0)%Q.
Proof.
  revert a; induction cs as [|c cs IH]; intros a Hcs Ha; simpl; [done|].
  apply IH; [intros x Hx; by apply Hcs, list_elem_of_further|].
  assert (Hc : (0 <= c)%Q) by apply Hcs, list_elem_of_here.
  unfold seed_step. destruct (Qgt_bool c 0) eqn:E; simpl; [done|].
  apply Qgt_bool_false in E. assert (Hz : (c == 0)%Q) by lra.
  rewrite Ha, Hz. reflexivity.
Qed.

Lemma seed_step_falling cs a :
  (forall c, c ∈ cs -> (c < 0)%Q) ->
  (fold_left seed_step cs a).1 = a.1
  /\ (a.2 <= (fold_left seed_step cs a).2)%Q
  /\ (cs <> [] -> (a.2 < (fold_left seed_step cs a).2)%Q).
Proof.
  revert a; induction cs as [|c cs IH]; intros a Hcs; simpl.
  - split; [done|]. split; [lra|done].
  - assert (Hc : (c < 0)%Q) by apply Hcs, list_elem_of_here.
    destruct (IH (seed_step a c)) as (H1 & H2 & _).
    { intros x Hx. by apply Hcs, list_elem_of_further. }
    assert (E : Qgt_bool c 0 = false) by (apply Qgt_bool_false; lra).
    unfold seed_step in *. rewrite E in *. simpl in *.
    assert (Habs : (0 < Qabs c)%Q).
    { rewrite Qabs_neg by lra. lra. }
    split; [done|]. split; [lra|]. intros _. lra.
Qed.

Lemma rsi_value_no_gain g l :
  (g == 0)%Q -> (0 < l)%Q -> (rsi_value g l == 0)%Q.
Proof.
  intros Hg Hl. rewrite (proj2 (rsi_value_guard g l)) by lra.
  rewrite Hg. field. lra.
Qed.

(** On prices that never fall every number of the RSI is 100, and on prices
    that always fall every number of the RSI is 0. *)
Theorem calculateRSI_monotone (data : list Q) (p : Z) :
  (1 <= p)%Z ->
  (non_decreasing data ->
     all_defined (fun v => v = 100%Q) (calculateRSI data p))
  /\ (strictly_decreasing data ->
        all_defined (fun v => (v == 0)%Q) (calculateRSI data p)).
Proof.
  intros Hp. split.
  - intros Hup i v Hv.
    assert (Hch : forall j c, price_changes data !! j = Some c -> (0 <= c)%Q).
    { intros j c (a & b & Ha & Hb & ->)%price_changes_inv.
      pose proof (Hup j a b Ha Hb). lra. }
    destruct (calculateRSI_values_range (fun a => (a.2 == 0)%Q) data p i v)
      as (a & Hl & ->); [lia| | |done|].
    + unfold rsi_seed. simpl.
      rewrite seed_step_rising; [unfold Qdiv; ring| |reflexivity].
      intros x Hx. apply list_elem_of_lookup in Hx as [j Hx].
      apply lookup_take_Some in Hx as [Hx _]. eauto.
    + intros a j c Ha Hc. simpl.
      assert (E : Qlt_bool c 0 = false)
        by (apply Qgt_bool_false; eauto).
      rewrite E, Ha. unfold Qdiv. ring.
    + by apply rsi_value_guard.
  - intros Hdown i v Hv.
    assert (Hch : forall j c, price_changes data !! j = Some c -> (c < 0)%Q).
    { intros j c (a & b & Ha & Hb & ->)%price_changes_inv.
      pose proof (Hdown j a b Ha Hb). lra. }
    assert (Hlong : (p + 1 <= Z.of_nat (length data))%Z).
    { destruct (Z.ltb_spec (Z.of_nat (length data)) (p + 1)); [|done].
      rewrite calculateRSI_short in Hv by done.
      by apply lookup_replicate in Hv as [? _]. }
    pose proof (inject_Z_pos p Hp) as Hpos.
    pose proof (inject_Z_pred_nonneg p Hp) as Hpred.
    destruct (calculateRSI_values_range
                (fun a => (a.1 == 0)%Q /\ (0 < a.2)%Q) data p i v)
      as (a & [Hg Hl] & ->); [lia| | |done|by apply rsi_value_no_gain].
    + unfold rsi_seed.
      destruct (seed_step_falling (take (Z.to_nat p) (price_changes data))
                  (0%Q, 0%Q)) as (H1 & _ & H3).
      { intros x Hx. apply list_elem_of_lookup in Hx as [j Hx].
        apply lookup_take_Some in Hx as [Hx _]. eauto. }
      simpl in *. rewrite H1. split; [unfold Qdiv; ring|].
      apply Qlt_shift_div_l; [done|].
      rewrite Qmult_0_l. apply H3. intros Hnil.
      apply (f_equal length) in Hnil.
      rewrite length_take, price_changes_length in Hnil. simpl in Hnil. lia.
    + intros a j c [Hg Hl] Hc. specialize (Hch j c Hc). simpl.
      assert (E1 : Qgt_bool c 0 = false) by (apply Qgt_bool_false; lra).
      assert (E2 : Qlt_bool c 0 = true) by (apply Qgt_bool_true; lra).
      rewrite E1, E2. split.
      * rewrite Hg. unfold Qdiv. ring.
      * apply Qlt_shift_div_l; [done|]. rewrite Qmult_0_l.
        assert (Habs : (0 < Qabs c)%Q) by (rewrite Qabs_neg by lra; lra).
        pose proof (Qmult_le_0_compat _ _ (Qlt_le_weak _ _ Hl) Hpred). lra.
Qed.

Lemma calculateRSI_monotone_witness :
  all_defined (fun v => (v == 0)%Q) (calculateRSI [9; 7; 4; 2; 1]%Q 2).
Proof.
  assert (Hp : (1 <= 2)%Z) by lia.
  apply (proj2 (calculateRSI_monotone [9; 7; 4; 2; 1]%Q 2 Hp)).
  intros i a b Ha Hb.
  do 5 (destruct i as [|i]; [simpl in Ha, Hb; simplify_eq; lra|]).
  done.
Defined.

(** ** More on the crossovers *)

Lemma Qle_bool_diff x y : Qle_bool (x - y) 0 = Qle_bool x y.
Proof.
  apply eq_true_iff_eq. rewrite !Qle_bool_iff. split; intros; lra.
Qed.

Lemma Qle_bool_diff_r x y : Qle_bool 0 (x - y) = Qle_bool y x.
Proof.
  apply eq_true_iff_eq. rewrite !Qle_bool_iff. split; intros; lra.
Qed.

Lemma Qgt_bool_diff x y : Qgt_bool (x - y) 0 = Qgt_bool x y.
Proof. unfold Qgt_bool. by rewrite Qle_bool_diff. Qed.

Lemma Qgt_bool_diff_r x y : Qgt_bool 0 (x - y) = Qgt_bool y x.
Proof. unfold Qgt_bool. by rewrite Qle_bool_diff_r. Qed.

Lemma zero_crossover_at_diff A B times i :
  1 <= i -> i < length A ->
  zero_crossover_at (diff_series A B) times i = crossover_at A B times i.
Proof.
  intros H1 Hi. unfold zero_crossover_at, crossover_at.
  rewrite !diff_series_lookup.
  destruct (lookup_lt_is_Some_2 A (i - 1)) as [pa ->]; [lia|].
  destruct (lookup_lt_is_Some_2 A i) as [ca ->]; [lia|].
  destruct pa as [pa|], ca as [ca|],
    (B !! (i - 1)) as [[pb|]|], (B !! i) as [[cb|]|];
    cbn; rewrite ?andb_false_r, ?orb_true_r; cbn; try done.
  by rewrite Qle_bool_diff, Qle_bool_diff_r, Qgt_bool_diff, Qgt_bool_diff_r.
Qed.

(** The zero-line crossovers of the difference of two series are the
    crossovers of the two series; so the zero-line crossovers of the MACD
    histogram are the crossovers of the MACD line and the signal line. *)
Theorem histogram_zero_crossovers (A B : series) (times : list Z) :
  findZeroLineCrossovers (diff_series A B) times
  = findMACDCrossovers A B times
  /\ forall data fast slow signal,
       let r := calculateMACD data fast slow signal in
       findZeroLineCrossovers (histogram r) times
       = findMACDCrossovers (macdLine r) (signalLine r) times.
Proof.
  assert (Hgen : forall A B,
    findZeroLineCrossovers (diff_series A B) times
    = findMACDCrossovers A B times).
  { clear. intros A B. unfold findZeroLineCrossovers, findMACDCrossovers.
    rewrite diff_series_length. apply flat_map_ext_elem.
    intros i Hi%elem_of_seq. apply zero_crossover_at_diff; lia. }
  split; [apply Hgen|]. intros data fast slow signal r. apply Hgen.
Qed.

Lemma crossover_at_swap A B times i :
  1 <= i -> i < length A -> length A = length B ->
  crossover_at B A times i = flip <$> crossover_at A B times i.
Proof.
  intros H1 Hi Hlen. unfold crossover_at.
  destruct (lookup_lt_is_Some_2 A (i - 1)) as [pa ->]; [lia|].
  destruct (lookup_lt_is_Some_2 A i) as [ca ->]; [lia|].
  destruct (lookup_lt_is_Some_2 B (i - 1)) as [pb ->]; [lia|].
  destruct (lookup_lt_is_Some_2 B i) as [cb ->]; [lia|].
  destruct pa as [pa|], ca as [ca|], pb as [pb|], cb as [cb|]; cbn;
    try done.
  destruct (Qle_bool pa pb) eqn:E1, (Qgt_bool ca cb) eqn:E2,
    (Qle_bool pb pa) eqn:E3, (Qgt_bool cb ca) eqn:E4; cbn; try done.
  all: apply Qgt_bool_true in E2; apply Qgt_bool_true in E4; lra.
Qed.

Lemma flat_map_fmap_elem {A B C} (f : B -> C) (g : A -> list C)
    (h : A -> list B) l :
  (forall a, a ∈ l -> g a = f <$> h a) ->
  flat_map g l = f <$> flat_map h l.
Proof.
  induction l as [|a l IH]; intros H; simpl; [done|].
  rewrite fmap_app, (H a), IH; [done| |by left].
  intros b Hb. apply H. by right.
Qed.

(** Exchanging the two series exchanges bullish and bearish: the crossovers
    of [B] against [A] are those of [A] against [B] with the direction of
    each event reversed, for series of the same length. *)
Theorem findMACDCrossovers_swap (A B : series) (times : list Z) :
  length A = length B ->
  findMACDCrossovers B A times = flip <$> findMACDCrossovers A B times.
Proof.
  intros Hlen. unfold findMACDCrossovers. rewrite <- Hlen.
  apply flat_map_fmap_elem. intros i Hi%elem_of_seq.
  apply crossover_at_swap; lia.
Qed.

Lemma findMACDCrossovers_swap_witness :
  findMACDCrossovers [Some 2; Some 2; Some 2]%Q [Some 1; Some 3; Some 1]%Q
    [10; 20; 30]%Z
  = [mkCrossover (Some 20%Z) bearish; mkCrossover (Some 30%Z) bullish].
Proof.
  rewrite (findMACDCrossovers_swap [Some 1; Some 3; Some 1]%Q
             [Some 2; Some 2; Some 2]%Q [10; 20; 30]%Z eq_refl).
  reflexivity.
Defined.

(** ** What the chart is given *)

Lemma lineData_cons x values times :
  lineData (x :: values) times
  = option_list (mkLinePoint (times !! 0) <$> x)
    ++ lineData values (tail times).
Proof.
  unfold lineData. rewrite imap_cons. cbn [omap list_omap fst snd].
  assert (Htail : imap ((fun idx value => (times !! idx, value)) ∘ S) values
                  = imap (fun idx value => (tail times !! idx, value)) values).
  { apply imap_ext. intros i v _. cbn. by rewrite lookup_tail. }
  rewrite Htail. by destruct x.
Qed.

Lemma lineData_from values times k :
  defined_from values k -> length times = length values ->
  lp_time <$> lineData values times = Some <$> drop k times
  /\ lp_value <$> lineData values times = validValues values.
Proof.
  revert times k; induction values as [|x values IH]; intros times k Hd Hlen.
  - destruct times; [|done]. by rewrite drop_nil.
  - destruct times as [|t times]; [done|]. simpl in Hlen.
    rewrite lineData_cons. cbn [tail lookup list_lookup].
    apply defined_from_cons in Hd. destruct k as [|k].
    + destruct Hd as [[v ->] Hd].
      destruct (IH times 0 Hd) as [IH1 IH2]; [lia|].
      cbn. rewrite IH1, drop_0. split; [done|].
      unfold validValues in *. cbn. by rewrite IH2.
    + destruct Hd as [-> Hd].
      destruct (IH times k Hd) as [IH1 IH2]; [lia|].
      cbn. by rewrite IH1.
Qed.

(** The line of an EMA or of a MACD line on the chart: one point for each
    candle from the first index at which the indicator is defined, in candle
    order, each at its candle's time, holding the numbers of the series. *)
Theorem lineData_aligned (data : list Q) (times : list Z) :
  length times = length data ->
  (forall p,
     lp_time <$> lineData (calculateEMA data p) times
     = Some <$> drop (Z.to_nat (p - 1)) times
     /\ lp_value <$> lineData (calculateEMA data p) times
        = validValues (calculateEMA data p))
  /\ (forall fast slow signal,
        let macd := macdLine (calculateMACD data fast slow signal) in
        lp_time <$> lineData macd times
        = Some <$> drop (Nat.max (Z.to_nat (fast - 1)) (Z.to_nat (slow - 1)))
                     times
        /\ lp_value <$> lineData macd times = validValues macd).
Proof.
  intros Hlen. split.
  - intros p. apply lineData_from; [apply calculateEMA_defined_from|].
    by rewrite calculateEMA_length.
  - intros fast slow signal macd. apply lineData_from.
    + apply macdLine_defined_from.
    + unfold macd.
      destruct (calculateMACD_length data fast slow signal) as (Hl & _).
      by rewrite Hl.
Qed.

Lemma lineData_aligned_witness :
  lp_time <$> lineData (calculateEMA [1; 2; 3; 4]%Q 3) [10; 20; 30; 40]%Z
  = [Some 30%Z; Some 40%Z].
Proof.
  apply (proj1 (lineData_aligned [1; 2; 3; 4]%Q [10; 20; 30; 40]%Z eq_refl)).
Defined.

Lemma lineData_nulls k values times :
  lineData (replicate k None ++ values) times = lineData values (drop k times).
Proof.
  revert times; induction k as [|k IH]; intros times; [by rewrite drop_0|].
  cbn [replicate app]. rewrite lineData_cons, IH. cbn.
  destruct times; cbn; [by rewrite drop_nil|done].
Qed.

Lemma smooth_loop_all_Some p changes idx acc :
  Forall is_Some (smooth_loop p changes idx acc).
Proof.
  revert acc; induction idx as [|i idx IH]; intros acc; cbn; constructor;
    eauto.
Qed.

Lemma defined_from_all_Some v l :
  Forall is_Some l -> defined_from ([Some v] ++ l) 0.
Proof.
  intros Hl i Hi. split; [lia|]. intros _. destruct i as [|i]; [by eexists|].
  cbn in *. destruct (lookup_lt_is_Some_2 l i) as [x Hx]; [lia|].
  rewrite Forall_lookup in Hl. destruct (Hl i x Hx) as [w ->]. eauto.
Qed.

(** With exactly [period + 1] candles the RSI line on the chart is a single
    point, and that point has no time: it sits past the last candle.  With
    at least [period + 2] candles every point of the line has the time of its
    candle, from index [period + 1] on. *)
Theorem lineData_RSI (data : list Q) (times : list Z) (p : Z) :
  (1 <= p)%Z -> length times = length data ->
  (Z.of_nat (length data) = (p + 1)%Z ->
     lineData (calculateRSI data p) times
     = [mkLinePoint None
          (rsi_value (rsi_avgs p (price_changes data) 0).1
                     (rsi_avgs p (price_changes data) 0).2)])
  /\ ((p + 2 <= Z.of_nat (length data))%Z ->
        lp_time <$> lineData (calculateRSI data p) times
        = Some <$> drop (Z.to_nat p + 1) times).
Proof.
  intros Hp Hlen. split.
  - intros Hn. rewrite calculateRSI_long by lia.
    replace (length data - 1 - (Z.to_nat p + 1)) with 0 by lia.
    rewrite lineData_nulls. cbn [seqZ smooth_loop app].
    rewrite drop_ge by lia. reflexivity.
  - intros Hn. rewrite calculateRSI_long by lia.
    rewrite lineData_nulls.
    apply (lineData_from _ _ 0);
      [apply defined_from_all_Some, smooth_loop_all_Some|].
    rewrite length_drop. cbn [app length].
    rewrite smooth_loop_length, length_seqZ. lia.
Qed.

Lemma lineData_RSI_witness :
  exists v,
    lineData (calculateRSI [1; 2; 3]%Q 2) [10; 20; 30]%Z
    = [mkLinePoint None v].
Proof.
  assert (Hp : (1 <= 2)%Z) by lia.
  eexists.
  apply (proj1 (lineData_RSI [1; 2; 3]%Q [10; 20; 30]%Z 2 Hp eq_refl)).
  reflexivity.
Defined.

(** ** More on the action schema *)

Ltac known_key :=
  unfold actionKeys;
  repeat first [ apply list_elem_of_here | apply list_elem_of_further ].

(** Unknown fields are ignored: the outcome of [parse] on an object depends
    only on what the object holds under the keys of the chart actions, so a
    field under any other key changes nothing. *)
Theorem parse_ignores_unknown (o o' : list (string * json)) :
  (forall key, key ∈ actionKeys -> get key o = get key o') ->
  parse (JObject o) = parse (JObject o').
Proof.
  intros H. unfold parse, ChartActionSchema, z_discriminatedUnion.
  rewrite <- (H "type") by known_key.
  destruct (get "type" o) as [[| | |tag| |]|]; try done.
  destruct (enum_lookup tag _) as [sch|] eqn:E; [|done].
  apply enum_lookup_Some in E.
  repeat (apply elem_of_cons in E as [[= -> ->]|E]);
    [..|by apply elem_of_nil in E];
    cbv [SetSymbolActionSchema SetTimeframeActionSchema LoadCandlesActionSchema
         AddIndicatorActionSchema UpdateIndicatorParamsActionSchema
         HighlightPointsActionSchema HighlightRegionActionSchema
         AddAnnotationActionSchema FocusRangeActionSchema
         ClearHighlightsActionSchema ClearIndicatorsActionSchema];
    cbn [z_object];
    rewrite <- ?(H "type") by known_key;
    rewrite <- ?(H "symbol") by known_key;
    rewrite <- ?(H "timeframe") by known_key;
    rewrite <- ?(H "from") by known_key;
    rewrite <- ?(H "to") by known_key;
    rewrite <- ?(H "indicator") by known_key;
    rewrite <- ?(H "params") by known_key;
    rewrite <- ?(H "points") by known_key;
    rewrite <- ?(H "region") by known_key;
    rewrite <- ?(H "annotation") by known_key;
    rewrite <- ?(H "range") by known_key;
    reflexivity.
Qed.

Lemma parse_ignores_unknown_witness :
  parse (JObject [("comment", JString "zoom in");
                  ("type", JString "SET_SYMBOL");
                  ("symbol", JString "ETHUSDT")])
  = parse (JObject [("type", JString "SET_SYMBOL");
                    ("symbol", JString "ETHUSDT")]).
Proof.
  apply parse_ignores_unknown. intros key Hkey. unfold actionKeys in Hkey.
  repeat (apply elem_of_cons in Hkey as [->|Hkey]; [reflexivity|]).
  by apply elem_of_nil in Hkey.
Defined.

(** An optional field that is present must hold a value of its type: a
    [LOAD_CANDLES] whose [from] or [to] is [null], and an [ADD_INDICATOR]
    whose [params] is [null], are rejected. *)
Theorem parse_rejects_null_optional (o : list (string * json))
    (tag key : string) :
  (tag, key) ∈ optionalFields ->
  get "type" o = Some (JString tag) ->
  get key o = Some JNull ->
  exists e, parse (JObject o) = Throw e.
Proof.
  intros Hin Htag Hnull. apply not_Return_Throw. intros Hacc.
  apply parse_accepts in Hacc
    as (o' & tag' & shape & [= <-] & Htag' & Hshape & Ho).
  rewrite Htag in Htag'. simplify_eq.
  assert (Hno : forall P : option json -> Prop,
            (forall v, P v -> v <> Some JNull) ->
            ~ optionally P (get key o)).
  { intros P HP [Hnone|HPv]; [congruence|]. by apply (HP _ HPv). }
  assert (Hnum : forall v, is_finite_number v -> v <> Some JNull)
    by (intros v [q ->]; done).
  assert (Hrec : forall v, is_number_record v -> v <> Some JNull)
    by (intros v (r & -> & _); done).
  unfold optionalFields in Hin.
  repeat (apply elem_of_cons in Hin as [[= -> ->]|Hin]);
    [..|by apply elem_of_nil in Hin].
  - assert (Hs : (("LOAD_CANDLES", fun o =>
       is_string (get "symbol" o) /\ is_string (get "timeframe" o)
       /\ optionally is_finite_number (get "from" o)
       /\ optionally is_finite_number (get "to" o))
       : string * (list (string * json) -> Prop)) ∈ wire_shapes)
      by (unfold wire_shapes; do 2 right; left).
    rewrite (wire_shapes_unique _ _ _ Hshape Hs) in Ho.
    destruct Ho as (_ & _ & Hfrom & _). by apply (Hno is_finite_number).
  - assert (Hs : (("LOAD_CANDLES", fun o =>
       is_string (get "symbol" o) /\ is_string (get "timeframe" o)
       /\ optionally is_finite_number (get "from" o)
       /\ optionally is_finite_number (get "to" o))
       : string * (list (string * json) -> Prop)) ∈ wire_shapes)
      by (unfold wire_shapes; do 2 right; left).
    rewrite (wire_shapes_unique _ _ _ Hshape Hs) in Ho.
    destruct Ho as (_ & _ & _ & Hto). by apply (Hno is_finite_number).
  - assert (Hs : (("ADD_INDICATOR", fun o =>
       is_one_of indicatorTypes (get "indicator" o)
       /\ optionally is_number_record (get "params" o))
       : string * (list (string * json) -> Prop)) ∈ wire_shapes)
      by (unfold wire_shapes; do 3 right; left).
    rewrite (wire_shapes_unique _ _ _ Hshape Hs) in Ho.
    destruct Ho as (_ & Hparams). by apply (Hno is_number_record).
Qed.

Lemma parse_rejects_null_optional_witness :
  exists e,
    parse (JObject [("type", JString "ADD_INDICATOR");
                    ("indicator", JString "RSI"); ("params", JNull)])
    = Throw e.
Proof.
  apply (parse_rejects_null_optional _ "ADD_INDICATOR" "params");
    [|reflexivity|reflexivity].
  unfold optionalFields. do 2 right. left.
Defined.

(** ** More on the execution engine *)

Lemma markersOf_app h1 h2 : markersOf (h1 ++ h2) = markersOf h1 ++ markersOf h2.
Proof. unfold markersOf. by rewrite List.filter_app, fmap_app. Qed.

Lemma js_or_prefixed prefix label :
  prefix <> "" ->
  js_or (prefixed prefix label) "" = boundary_text prefix label.
Proof.
  intros Hp. unfold prefixed, boundary_text, js_or.
  destruct label as [l|]; [|done].
  destruct (String.eqb_spec l "") as [->|Hl]; [by rewrite decide_True|].
  rewrite decide_False by done.
  destruct (String.eqb_spec (prefix ++ l) "") as [E|_]; [|done].
  destruct prefix; [done|discriminate E].
Qed.

(** [HIGHLIGHT_REGION] appends exactly two highlight points, at [fromTime]
    and at [toTime], on the pane of the region.  On the chart they give two
    markers, with the texts "Start: label" and "End: label" (empty without a
    label), unless the region is on the indicator pane: then they give no
    marker at all. *)
Theorem HIGHLIGHT_REGION_markers
    (fetchCandles : nat -> string -> string -> outcome (list Candle))
    (captured : Captured) (region : Region) (eng : Engine) :
  exists eng',
    executeAction fetchCandles captured (HIGHLIGHT_REGION region) eng
    = Return eng'
    /\ highlights (chart eng')
       = highlights (chart eng)
         ++ [ mkHighlightPoint (rg_fromTime region) None (rg_pane region)
                (prefixed "Start: " (rg_label region));
              mkHighlightPoint (rg_toTime region) None (rg_pane region)
                (prefixed "End: " (rg_label region)) ]
    /\ annotations (chart eng') = annotations (chart eng)
    /\ markersOf (highlights (chart eng'))
       = markersOf (highlights (chart eng))
         ++ match rg_pane region with
            | Some pane_indicator => []
            | _ =>
                [ mkMarker (rg_fromTime region)
                    (boundary_text "Start: " (rg_label region));
                  mkMarker (rg_toTime region)
                    (boundary_text "End: " (rg_label region)) ]
            end.
Proof.
  eexists. split; [reflexivity|]. split; [reflexivity|].
  split; [reflexivity|].
  cbn [chart dispatch chartReducer highlights]. rewrite markersOf_app.
  f_equal. unfold markersOf, on_price_pane.
  destruct (rg_pane region) as [[|]|]; cbn; try done;
    by rewrite !js_or_prefixed.
Qed.

(** [UPDATE_INDICATOR_PARAMS] replaces the params of the configurations of
    that name and changes nothing else: names, order and visibility stay,
    and when no configuration has that name the state is unchanged. *)
Theorem UPDATE_INDICATOR_PARAMS_spec
    (fetchCandles : nat -> string -> string -> outcome (list Candle))
    (captured : Captured) (indicator : IndicatorType) (ps : gmap string Q)
    (eng : Engine) :
  exists eng',
    executeAction fetchCandles captured
      (UPDATE_INDICATOR_PARAMS indicator ps) eng = Return eng'
    /\ indicator_names (chart eng') = indicator_names (chart eng)
    /\ visible <$> indicators (chart eng')
       = visible <$> indicators (chart eng)
    /\ (forall i cfg, indicators (chart eng) !! i = Some cfg ->
          indicators (chart eng') !! i
          = Some (if decide (name cfg = indicator)
                  then mkIndicatorConfig indicator ps (visible cfg)
                  else cfg))
    /\ (indicator ∉ indicator_names (chart eng) -> eng' = eng).
Proof.
  eexists. split; [reflexivity|].
  cbn [chart dispatch chartReducer indicators]. unfold indicator_names.
  cbn [indicators].
  assert (Hmap : forall l : list IndicatorConfig,
    indicator ∉ name <$> l ->
    (fun i => if name_is indicator i
              then mkIndicatorConfig (name i) ps (visible i) else i) <$> l
    = l).
  { induction l as [|c l IH]; [done|]. rewrite fmap_cons, not_elem_of_cons.
    intros [Hne Hl]. cbn. rewrite IH by done. unfold name_is.
    by rewrite bool_decide_eq_false_2 by congruence. }
  split; [|split; [|split]].
  - rewrite <- list_fmap_compose. apply list_fmap_ext. intros _ c _. cbn.
    by destruct (name_is _ _).
  - rewrite <- list_fmap_compose. apply list_fmap_ext. intros _ c _. cbn.
    by destruct (name_is _ _).
  - intros i cfg Hcfg. rewrite list_lookup_fmap, Hcfg. cbn. unfold name_is.
    destruct (decide (name cfg = indicator)) as [<-|Hne].
    + by rewrite bool_decide_eq_true_2.
    + by rewrite bool_decide_eq_false_2.
  - intros Hout. unfold dispatch. cbn [chartReducer].
    rewrite Hmap by done. by destruct eng as [[] ?].
Qed.

Lemma executeActions_app
    (fetchCandles : nat -> string -> string -> outcome (list Candle))
    (captured : Captured) (a b : list ChartAction) (eng : Engine) :
  executeActions fetchCandles captured (a ++ b) eng
  = executeActions fetchCandles captured a eng
    ≫= executeActions fetchCandles captured b.
Proof.
  revert eng; induction a as [|x a IH]; intros eng; cbn; [done|].
  destruct (executeAction fetchCandles captured x eng) as [eng'|e]; cbn;
    [apply IH|done].
Qed.

(** Highlights and annotations are only ever appended to: over a batch
    without [CLEAR_HIGHLIGHTS], the highlights and the annotations of the
    state before are a prefix of those after. *)
Theorem highlights_append_only
    (fetchCandles : nat -> string -> string -> outcome (list Candle))
    (captured : Captured) (actions : list ChartAction) (eng eng' : Engine) :
  CLEAR_HIGHLIGHTS ∉ actions ->
  executeActions fetchCandles captured actions eng = Return eng' ->
  highlights (chart eng) `prefix_of` highlights (chart eng')
  /\ annotations (chart eng) `prefix_of` annotations (chart eng').
Proof.
  revert eng; induction actions as [|a actions IH]; intros eng Hclear Hrun.
  - cbn in Hrun. by simplify_eq.
  - apply not_elem_of_cons in Hclear as [Ha Hclear].
    cbn in Hrun. apply bind_Return in Hrun as (eng1 & H1 & Hrun).
    destruct (IH eng1 Hclear Hrun) as [IHh IHa].
    assert (Hstep :
      highlights (chart eng) `prefix_of` highlights (chart eng1)
      /\ annotations (chart eng) `prefix_of` annotations (chart eng1)).
    { destruct a; cbn [executeAction] in H1;
        rewrite ?loadCandles_result in H1; simplify_eq;
        cbn [chart dispatch chartReducer highlights annotations];
        split; try done; by apply prefix_app_r. }
    destruct Hstep as [Hh Hann]. split; by etrans.
Qed.

Lemma highlights_append_only_witness :
  exists eng',
    executeActions (fun _ _ _ => Throw FetchError) (mkCaptured "BTCUSDT" TF_1d)
      [HIGHLIGHT_POINTS [mkHighlightPoint 5 None None None];
       SET_SYMBOL "ETHUSDT"]
      (mkEngine initialState 0) = Return eng'
    /\ highlights initialState `prefix_of` highlights (chart eng').
Proof.
  eexists. split; [reflexivity|].
  eapply proj1,
    (highlights_append_only (fun _ _ _ => Throw FetchError)
       (mkCaptured "BTCUSDT" TF_1d)
       [HIGHLIGHT_POINTS [mkHighlightPoint 5 None None None];
        SET_SYMBOL "ETHUSDT"]
       (mkEngine initialState 0)); [|reflexivity].
  intros Hin.
  repeat (apply elem_of_cons in Hin as [[=]|Hin]). by apply elem_of_nil in Hin.
Defined.

Lemma js_or_Some s d : s <> "" -> js_or (Some s) d = s.
Proof. intros Hs. unfold js_or. by destruct (String.eqb_spec s ""). Qed.

(** [LOAD_CANDLES s t], with a symbol and a timeframe that are not empty,
    sends one request, for [s] at [t]; [from] and [to] are not used.  It
    leaves the symbol and the timeframe of the state as they were, so the
    reload effect of the chart panel does not run and no second request
    follows; [isLoading] ends false.  When the request is answered with
    [data] the candles become [data] and nothing else changes: the chart
    then shows the candles of [s] under the symbol and the timeframe it
    showed before. *)
Theorem LOAD_CANDLES_request
    (fetchCandles : nat -> string -> string -> outcome (list Candle))
    (captured : Captured) (eng : Engine) (s t : string) (from to : option Q) :
  s <> "" -> t <> "" ->
  exists eng',
    executeAction fetchCandles captured (LOAD_CANDLES s t from to) eng
    = Return eng'
    /\ executeAction fetchCandles captured (LOAD_CANDLES s t None None) eng
       = Return eng'
    /\ requests eng' = S (requests eng)
    /\ reloadEffect_runs (chart eng) (chart eng') = false
    /\ isLoading (chart eng') = false
    /\ (forall data,
          fetchCandles (requests eng) s t = Return data ->
          chart eng' = with_candles (chart eng) data)
    /\ (forall e,
          fetchCandles (requests eng) s t = Throw e ->
          chart eng' = with_candles (chart eng) (candles (chart eng))).
Proof.
  intros Hs Ht. eexists. split.
  - cbn [executeAction]. rewrite loadCandles_result.
    rewrite !js_or_Some by done. reflexivity.
  - split.
    { cbn [executeAction]. rewrite loadCandles_result.
      by rewrite !js_or_Some by done. }
    cbn [chart requests symbol timeframe isLoading].
    split; [done|]. split.
    { unfold reloadEffect_runs. cbn [symbol timeframe].
      by rewrite !String.eqb_refl. }
    split; [done|]. split.
    + intros data Hf. by rewrite Hf.
    + intros e Hf. by rewrite Hf.
Qed.

Lemma LOAD_CANDLES_request_witness :
  executeAction
    (fun _ s t =>
       if String.eqb s "ETHUSDT"
       then Return [mkCandle 60 1 2 1 2 None] else Throw FetchError)
    (mkCaptured "BTCUSDT" TF_1d) (LOAD_CANDLES "ETHUSDT" "4h" (Some 1%Q) None)
    (mkEngine initialState 0)
  = Return
      (mkEngine (with_candles initialState [mkCandle 60 1 2 1 2 None]) 1).
Proof.
  destruct (LOAD_CANDLES_request
              (fun _ s t =>
                 if String.eqb s "ETHUSDT"
                 then Return [mkCandle 60 1 2 1 2 None] else Throw FetchError)
              (mkCaptured "BTCUSDT" TF_1d) (mkEngine initialState 0)
              "ETHUSDT" "4h" (Some 1%Q) None)
    as (eng' & Hrun & _ & Hreq & _ & _ & Hdata & _);
    [discriminate|discriminate|].
  rewrite Hrun. f_equal. destruct eng' as [st n]. cbn in Hreq, Hdata.
  rewrite Hreq. by rewrite (Hdata [mkCandle 60 1 2 1 2 None]).
Defined.

(** A batch that holds no [SET_SYMBOL] and no [SET_TIMEFRAME] sends one
    candle request for each [LOAD_CANDLES] in it and none for its other
    commands, whether the requests are answered or fail.  The symbol and the
    timeframe of the state stay as they were, so the reload effect of the
    chart panel does not run and adds no request; and [isLoading] is false
    after the batch if it was false before. *)
Theorem executeActions_requests
    (fetchCandles : nat -> string -> string -> outcome (list Candle))
    (captured : Captured) (actions : list ChartAction) (eng : Engine) :
  Forall (fun a => retargets a = false) actions ->
  exists eng',
    executeActions fetchCandles captured actions eng = Return eng'
    /\ requests eng' = requests eng + length (List.filter is_reload actions)
    /\ symbol (chart eng') = symbol (chart eng)
    /\ timeframe (chart eng') = timeframe (chart eng)
    /\ reloadEffect_runs (chart eng) (chart eng') = false
    /\ (isLoading (chart eng) = false -> isLoading (chart eng') = false).
Proof.
  intros Hall.
  assert (H : exists eng',
    executeActions fetchCandles captured actions eng = Return eng'
    /\ requests eng' = requests eng + length (List.filter is_reload actions)
    /\ symbol (chart eng') = symbol (chart eng)
    /\ timeframe (chart eng') = timeframe (chart eng)
    /\ (isLoading (chart eng) = false -> isLoading (chart eng') = false)).
  { revert eng; induction Hall as [|a actions Ha _ IH]; intros eng.
    - exists eng. cbn. repeat split; (lia || done).
    - assert (Hstep : exists eng1,
        executeAction fetchCandles captured a eng = Return eng1
        /\ requests eng1 = requests eng + (if is_reload a then 1 else 0)
        /\ symbol (chart eng1) = symbol (chart eng)
        /\ timeframe (chart eng1) = timeframe (chart eng)
        /\ (isLoading (chart eng) = false ->
              isLoading (chart eng1) = false)).
      { destruct a; try discriminate Ha; cbn [executeAction];
          rewrite ?loadCandles_result; eexists; (split; [reflexivity|]);
          cbn; repeat split; (lia || done). }
      destruct Hstep as (eng1 & H1 & Hr1 & Hs1 & Ht1 & Hl1).
      destruct (IH eng1) as (eng' & Hrun & Hr & Hs & Ht & Hl).
      exists eng'. cbn [executeActions]. rewrite H1. cbn [mbind outcome_bind].
      split; [done|]. cbn [List.filter].
      split; [destruct (is_reload a); cbn [length]; lia|].
      split; [congruence|]. split; [congruence|]. auto. }
  destruct H as (eng' & Hrun & Hr & Hs & Ht & Hl). exists eng'.
  split; [done|]. split; [done|]. split; [done|]. split; [done|].
  split; [|done]. unfold reloadEffect_runs. rewrite Hs, Ht.
  by rewrite !String.eqb_refl.
Qed.

Lemma executeActions_requests_witness :
  exists eng',
    executeActions (fun _ _ _ => Throw FetchError) (mkCaptured "BTCUSDT" TF_1d)
      [LOAD_CANDLES "ETHUSDT" "4h" None None; CLEAR_HIGHLIGHTS;
       LOAD_CANDLES "BNBUSDT" "1h" None None]
      (mkEngine initialState 0) = Return eng'
    /\ requests eng' = 2
    /\ symbol (chart eng') = "BTCUSDT".
Proof.
  destruct (executeActions_requests (fun _ _ _ => Throw FetchError)
              (mkCaptured "BTCUSDT" TF_1d)
              [LOAD_CANDLES "ETHUSDT" "4h" None None; CLEAR_HIGHLIGHTS;
               LOAD_CANDLES "BNBUSDT" "1h" None None]
              (mkEngine initialState 0))
    as (eng' & Hrun & Hreq & Hsym & _).
  - repeat constructor.
  - by exists eng'.
Defined.

Lemma UPDATE_INDICATOR_PARAMS_spec_witness :
  exists eng',
    executeAction (fun _ _ _ => Throw FetchError) (mkCaptured "BTCUSDT" TF_1d)
      (UPDATE_INDICATOR_PARAMS RSI_ {[ "period" := 7%Q ]})
      (mkEngine initialState 0) = Return eng'
    /\ eng' = mkEngine initialState 0.
Proof.
  destruct (UPDATE_INDICATOR_PARAMS_spec (fun _ _ _ => Throw FetchError)
              (mkCaptured "BTCUSDT" TF_1d) RSI_ {[ "period" := 7%Q ]}
              (mkEngine initialState 0))
    as (eng' & Hrun & _ & _ & _ & Hsame).
  exists eng'. split; [done|]. apply Hsame. apply not_elem_of_nil.
Defined.

Lemma find_name_is_None n (inds : list IndicatorConfig) :
  n ∉ name <$> inds -> List.find (name_is n) inds = None.
Proof.
  induction inds as [|i inds IH]; [done|].
  rewrite fmap_cons, not_elem_of_cons. intros [Hne Hin]. cbn [List.find].
  unfold name_is at 1. rewrite bool_decide_eq_false_2 by congruence. auto.
Qed.

Lemma find_name_is_Some n (inds : list IndicatorConfig) :
  n ∈ name <$> inds -> exists i, List.find (name_is n) inds = Some i.
Proof.
  induction inds as [|i inds IH]; [by intros ?%elem_of_nil|].
  rewrite fmap_cons. intros Hin. cbn [List.find]. unfold name_is at 1.
  case_bool_decide as Hi; [by eexists|].
  apply elem_of_cons in Hin as [Heq|Hin]; [congruence|auto].
Qed.

Lemma remove_names n (inds : list IndicatorConfig) :
  n ∉ name <$> List.filter (fun i => negb (name_is n i)) inds.
Proof.
  intros (i & Hn & Hi)%list_elem_of_fmap.
  apply list_elem_of_In, filter_In in Hi as [_ Hi].
  unfold name_is in Hi. apply negb_true_iff, bool_decide_eq_false in Hi.
  congruence.
Qed.

Lemma remove_absent n (inds : list IndicatorConfig) :
  n ∉ name <$> inds ->
  List.filter (fun i => negb (name_is n i)) inds = inds.
Proof.
  induction inds as [|i inds IH]; [done|].
  rewrite fmap_cons, not_elem_of_cons. intros [Hne Hin]. cbn [List.filter].
  unfold name_is at 1. rewrite bool_decide_eq_false_2 by congruence.
  cbn [negb]. by rewrite IH.
Qed.

Lemma find_name_is_app n (l1 l2 : list IndicatorConfig) :
  n ∉ name <$> l1 ->
  List.find (name_is n) (l1 ++ l2) = List.find (name_is n) l2.
Proof.
  induction l1 as [|i l1 IH]; [done|].
  rewrite fmap_cons, not_elem_of_cons. intros [Hne Hin]. cbn [app List.find].
  unfold name_is at 1. rewrite bool_decide_eq_false_2 by congruence. auto.
Qed.

Lemma remove_app n (l1 l2 : list IndicatorConfig) :
  List.filter (fun i => negb (name_is n i)) (l1 ++ l2)
  = List.filter (fun i => negb (name_is n i)) l1
    ++ List.filter (fun i => negb (name_is n i)) l2.
Proof. apply List.filter_app. Qed.

(** The indicator button of the chart panel.  It never asks for candles.
    On an indicator that is not active it appends the indicator with its
    default parameters, and a second click restores the state exactly.  On an
    active indicator it removes every configuration of that name, so that a
    second click brings the indicator back at the end of the list with the
    default parameters, whatever parameters it had before. *)
Theorem handleToggleIndicator_spec
    (fetchCandles : nat -> string -> string -> outcome (list Candle))
    (captured : Captured) (indicator : IndicatorType) (eng : Engine) :
  let fresh := mkIndicatorConfig indicator (defaultParams indicator) true in
  exists eng1 eng2,
    handleToggleIndicator fetchCandles captured indicator eng = Return eng1
    /\ handleToggleIndicator fetchCandles captured indicator eng1
       = Return eng2
    /\ requests eng1 = requests eng
    /\ requests eng2 = requests eng
    /\ (indicator ∉ indicator_names (chart eng) ->
          indicators (chart eng1) = indicators (chart eng) ++ [fresh]
          /\ eng2 = eng)
    /\ (indicator ∈ indicator_names (chart eng) ->
          indicators (chart eng1)
          = List.filter (fun i => negb (name_is indicator i))
              (indicators (chart eng))
          /\ (indicator ∉ indicator_names (chart eng1))
          /\ indicators (chart eng2) = indicators (chart eng1) ++ [fresh]).
Proof.
  intros fresh. unfold indicator_names.
  assert (Hnot : forall l : list IndicatorConfig,
            indicator ∉ name <$> l ->
            existsb (name_is indicator) l = false).
  { intros l Hl. apply not_true_is_false. by rewrite existsb_name_is. }
  assert (Hfresh : List.find (name_is indicator) [fresh] = Some fresh).
  { cbn. unfold name_is. by rewrite bool_decide_eq_true_2. }
  destruct (decide (indicator ∈ name <$> indicators (chart eng)))
    as [Hin|Hout].
  - destruct (find_name_is_Some _ _ Hin) as (i & Hfind).
    pose proof (remove_names indicator (indicators (chart eng))) as Hrem.
    unfold handleToggleIndicator. rewrite Hfind.
    eexists _, _. split; [reflexivity|].
    cbn [chart dispatch chartReducer indicators].
    rewrite (find_name_is_None _ _ Hrem).
    cbn [executeAction default]. fold fresh. split; [reflexivity|].
    unfold dispatch. cbn [chart chartReducer indicators requests name].
    change (name fresh) with indicator. rewrite (Hnot _ Hrem).
    split; [done|]. split; [done|]. split; [done|]. by intros _.
  - unfold handleToggleIndicator. rewrite (find_name_is_None _ _ Hout).
    cbn [executeAction default]. fold fresh.
    eexists _, _. split; [reflexivity|].
    unfold dispatch at 1. cbn [chart chartReducer indicators].
    change (name fresh) with indicator. rewrite (Hnot _ Hout).
    assert (Hf : List.find (name_is indicator)
                   (indicators (chart eng) ++ [fresh]) = Some fresh).
    { by rewrite find_name_is_app. }
    rewrite Hf. split; [reflexivity|].
    unfold dispatch. cbn [requests chart chartReducer indicators].
    change (name fresh) with indicator. rewrite (Hnot _ Hout).
    split; [done|]. split; [done|]. split; [|done]. intros _.
    split; [done|].
    rewrite remove_app, (remove_absent _ _ Hout). cbn [List.filter].
    unfold name_is. rewrite bool_decide_eq_true_2 by done. cbn [negb].
    rewrite app_nil_r. by destruct eng as [[] ?].
Qed.

Lemma handleToggleIndicator_spec_witness :
  exists eng1,
    handleToggleIndicator (fun _ _ _ => Throw FetchError)
      (mkCaptured "BTCUSDT" TF_1d) RSI_ (mkEngine initialState 0) = Return eng1
    /\ handleToggleIndicator (fun _ _ _ => Throw FetchError)
         (mkCaptured "BTCUSDT" TF_1d) RSI_ eng1
       = Return (mkEngine initialState 0).
Proof.
  destruct (handleToggleIndicator_spec (fun _ _ _ => Throw FetchError)
              (mkCaptured "BTCUSDT" TF_1d) RSI_ (mkEngine initialState 0))
    as (eng1 & eng2 & H1 & H2 & _ & _ & Hout & _).
  destruct Hout as [_ ->]; [apply not_elem_of_nil|]. by exists eng1.
Defined.



(** The two places of the LLM client that validate actions agree: the loop
    over the actions of a tool call and the map-and-filter over the actions
    of a lesson option keep the same actions in the same order, and neither
    fails or keeps more actions than it was given. *)
Theorem lessonActions_validateActions (raw : list json) :
  validateActions raw = Return (lessonActions raw)
  /\ length (lessonActions raw) <= length raw
  /\ (forall a, a ∈ lessonActions raw <->
                exists v, v ∈ raw /\ parse v = Return a).
Proof.
  assert (Heq : lessonActions raw = validSubsequence raw).
  { unfold lessonActions, validSubsequence, parseOrNull.
    induction raw as [|v raw IH]; [done|].
    rewrite fmap_cons. cbn [omap list_omap]. rewrite IH.
    by destruct (parse v). }
  split; [|split].
  - unfold validateActions. rewrite validate_loop_valid. by rewrite Heq.
  - rewrite Heq. pose proof (validSubsequence_length raw). lia.
  - intros a. rewrite Heq. unfold validSubsequence.
    rewrite list_elem_of_omap. split.
    + intros (v & Hv & Hp). exists v. split; [done|].
      by destruct (parse v); simplify_eq.
    + intros (v & Hv & Hp). exists v. split; [done|]. by rewrite Hp.
Qed.

(** The message list sent to the model: the system prompt first, then the
    conversation in order with roles and contents unchanged, except that the
    chart context is appended to the last message when that message is the
    user's.  Earlier user messages never receive the context. *)
Theorem messagesWithContext_spec (SYSTEM_PROMPT contextInfo : string)
    (earlier : list ChatMessage) (last : ChatMessage) :
  messagesWithContext SYSTEM_PROMPT contextInfo [] =
    [mkChatMessage role_system SYSTEM_PROMPT]
  /\ messagesWithContext SYSTEM_PROMPT contextInfo (earlier ++ [last])
     = mkChatMessage role_system SYSTEM_PROMPT
       :: earlier
       ++ [mkChatMessage (role last)
             (match role last with
              | role_user => (content last ++ contextInfo)%string
              | _ => content last
              end)].
Proof.
  split; [done|]. unfold messagesWithContext. f_equal.
  rewrite length_app. cbn [length].
  replace (length earlier + 1 - 1) with (length earlier) by lia.
  rewrite imap_app. f_equal.
  - rewrite <- (imap_ext (const id));
      [by rewrite imap_const, list_fmap_id|].
    intros i m Hm. apply lookup_lt_Some in Hm.
    rewrite (proj2 (Nat.eqb_neq _ _)) by lia. by destruct m.
  - cbn. rewrite Nat.add_0_r, Nat.eqb_refl. by destruct (role last).
Qed.
